(** * go-gas: gas price suggestion client for ETH Gas Station

    A shallow embedding of [gas_price.go] and a verification of the unit
    converter ([parseGasPriceToWei]) and of the cached suggester
    ([NewGasPriceSuggester], [suggestCachedGasPrice]).

    Layout:
    - [Go]      : values shared by all packages (errors, panics, the
                   state-and-panic monad);
    - [math]    : [float64] as IEEE 754 binary64 ([SpecFloat.spec_float]);
    - [big]     : the part of [math/big] the converter calls ([Float] with
                   its precision and rounding, [NewFloat], [Mul], [IsInt],
                   [Int]);
    - [time]    : monotonic clock readings and durations;
    - [gas]     : the package itself;
    - [Exact]   : rational-number specification of the conversion;
    - theorems. *)

From Stdlib Require Import ZArith QArith Qround Qpower Qabs Bool List String Lia Lqa.
From Stdlib Require Import Floats.SpecFloat.
Import ListNotations.

Local Open Scope string_scope.
Local Open Scope Z_scope.

(* ================================================================== *)
(** ** Go runtime values *)

Module Go.

(** A Go [error] value.  [errorString] is what [errors.New] builds; the
    other two stand for the errors of [net/http] (a [url.Error]) and of
    [encoding/json] (syntax and type errors of [Decode]). *)
Inductive error : Type :=
| errorString (s : string)
| url_Error (s : string)
| json_Error (s : string).

Definition errors_New (s : string) : error := errorString s.

(** A call either returns or panics. *)
Inductive outcome (A : Type) : Type :=
| Return (a : A)
| Panic (msg : string).
Arguments Return {A} a.
Arguments Panic {A} msg.

Definition obind {A B} (o : outcome A) (k : A -> outcome B) : outcome B :=
  match o with
  | Return a => k a
  | Panic msg => Panic msg
  end.

(** Stateful code: a state [S] threaded through calls that may panic.
    The state reached at a panic is kept: Go does not roll back. *)
Definition M (S A : Type) : Type := S -> outcome A * S.

Definition ret {S A} (a : A) : M S A := fun s => (Return a, s).

Definition bind {S A B} (c : M S A) (k : A -> M S B) : M S B :=
  fun s =>
    match c s with
    | (Return a, s') => k a s'
    | (Panic msg, s') => (Panic msg, s')
    end.

Definition get {S} : M S S := fun s => (Return s, s).
Definition lift_outcome {S A} (o : outcome A) : M S A := fun s => (o, s).

End Go.

Import Go.

Declare Scope go_scope.
Delimit Scope go_scope with go.
Notation "x <- c ;; k" := (bind c (fun x => k))
  (at level 61, c at next level, right associativity) : go_scope.
Notation "' pat <- c ;; k" := (bind c (fun x => match x with pat => k end))
  (at level 61, pat pattern, c at next level, right associativity) : go_scope.
Notation "x <~ c ;; k" := (obind c (fun x => k))
  (at level 61, c at next level, right associativity) : go_scope.

(* ================================================================== *)
(** ** Package [math]: float64 *)

Module math.

(** [float64] is IEEE 754 binary64: precision 53, [emax] 1024.  A finite
    non-zero value [S754_finite s m e] is [(-1)^s * m * 2^e]. *)
Definition float64 : Type := spec_float.

Definition prec64 : Z := 53.
Definition emax64 : Z := 1024.

(** The values a Go [float64] variable can hold. *)
Definition is_float64 (x : float64) : bool := valid_binary prec64 emax64 x.

Definition IsNaN (x : float64) : bool :=
  match x with S754_nan => true | _ => false end.

(** The float64 nearest to an integer constant (ties to even), as the
    compiler converts an untyped constant. *)
Definition float64_of_Z (z : Z) : float64 :=
  binary_normalize prec64 emax64 z 0 false.

(** The float64 nearest to the decimal [n / d] (ties to even), which is what
    [strconv.ParseFloat], and so [encoding/json], yield for a decimal
    literal whose digits [n] and scale [d] are both exact in float64. *)
Definition float64_of_decimal (n d : Z) : float64 :=
  SFdiv prec64 emax64 (float64_of_Z n) (float64_of_Z d).

End math.

Import math.

(* ================================================================== *)
(** ** Package [math/big]: Float and Int *)

Module big.

(** [nat.bitLen]: the length of [m] in bits ([m > 0]). *)
Definition bitLen (m : Z) : Z := Z.log2 m + 1.

(** [nat.trailingZeroBits]. *)
Fixpoint pos_ctz (p : positive) : Z :=
  match p with
  | xO q => 1 + pos_ctz q
  | _ => 0
  end.

Definition trailingZeroBits (m : Z) : Z :=
  match m with
  | Zpos p => pos_ctz p
  | _ => 0
  end.

Inductive form : Type := zero | finite | inf.

Inductive RoundingMode : Type :=
| ToNearestEven | ToNearestAway | ToZero
| AwayFromZero | ToNegativeInf | ToPositiveInf.

Definition MaxExp : Z := 2147483647.
Definition MinExp : Z := -2147483648.

(** A [big.Float].  For [fform = finite] the value is
    [(-1)^neg * 0.mant * 2^exp] with [0.5 <= 0.mant < 1]: the mantissa
    words of the Go representation are read as one binary fraction whose
    first bit is set.  Here [mant] is the positive integer with the same
    bits from that leading one downwards, so that the value is
    [mant * 2^(exp - bitLen mant)]; trailing zero words of the Go slice carry
    no information and are not represented.  The [acc] field is left out:
    the converter never reads it. *)
Record Float : Type := mkFloat {
  prec : Z;
  mode : RoundingMode;
  neg : bool;
  fform : form;
  mant : Z;
  exp : Z
}.

(** [new(big.Float)]: the zero value, precision 0, [ToNearestEven]. *)
Definition new_Float : Float := mkFloat 0 ToNearestEven false zero 0 0.

(** [Float.round]: round the mantissa to [prec] bits in mode [mode]. *)
Definition round (z : Float) : Float :=
  match fform z with
  | finite =>
      let bits := bitLen (mant z) in
      if bits <=? prec z then z
      else
        let r := bits - prec z - 1 in
        let rbit := Z.testbit (mant z) r in
        let sticky := negb (mant z mod 2 ^ r =? 0) in
        let sbit :=
          match mode z with
          | ToNearestEven => sticky
          | _ => if rbit then false else sticky
          end in
        let q := Z.shiftr (mant z) (r + 1) in
        if rbit || sbit then
          let inc :=
            match mode z with
            | ToNegativeInf => neg z
            | ToZero => false
            | ToNearestEven => rbit && (sbit || Z.odd q)
            | ToNearestAway => rbit
            | AwayFromZero => true
            | ToPositiveInf => negb (neg z)
            end in
          if inc then
            if q + 1 =? 2 ^ prec z then
              if exp z >=? MaxExp
              then mkFloat (prec z) (mode z) (neg z) inf q (exp z)
              else mkFloat (prec z) (mode z) (neg z) finite
                     (2 ^ (prec z - 1)) (exp z + 1)
            else mkFloat (prec z) (mode z) (neg z) finite (q + 1) (exp z)
          else mkFloat (prec z) (mode z) (neg z) finite q (exp z)
        else mkFloat (prec z) (mode z) (neg z) finite q (exp z)
  | _ => z
  end.

(** [Float.setExpAndRound] with [sbit = 0]. *)
Definition setExpAndRound (z : Float) (e : Z) : Float :=
  if e <? MinExp then
    mkFloat (prec z) (mode z) (neg z) zero (mant z) (exp z)
  else if e >? MaxExp then
    mkFloat (prec z) (mode z) (neg z) inf (mant z) (exp z)
  else round (mkFloat (prec z) (mode z) (neg z) finite (mant z) e).

(** [Float.SetFloat64]: the sign is [math.Signbit(x)], and [math.Frexp]
    normalises the significand of a finite [x], subnormal or not, to
    [0.5 <= fmant < 1]; no rounding unless [z] has fewer than 53 bits. *)
Definition SetFloat64 (z : Float) (x : float64) : outcome Float :=
  let p := if prec z =? 0 then 53 else prec z in
  match x with
  | S754_nan => Panic "Float.SetFloat64(NaN)"
  | S754_zero s => Return (mkFloat p (mode z) s zero (mant z) (exp z))
  | S754_infinity s => Return (mkFloat p (mode z) s inf (mant z) (exp z))
  | S754_finite s m e =>
      let z' := mkFloat p (mode z) s finite (Zpos m) (e + bitLen (Zpos m)) in
      Return (if p <? 53 then round z' else z')
  end.

(** [big.NewFloat]. *)
Definition NewFloat (x : float64) : outcome Float :=
  if IsNaN x then Panic "NewFloat(NaN)" else SetFloat64 new_Float x.

(** [fnorm]: the left shift that normalises the product of two normalised
    mantissas (0 or 1). *)
Definition fnorm (x y : Float) (m : Z) : Z :=
  bitLen (mant x) + bitLen (mant y) - bitLen m.

(** [Float.umul]: both operands finite. *)
Definition umul (z x y : Float) : Float :=
  let e := exp x + exp y in
  let m := mant x * mant y in
  setExpAndRound
    (mkFloat (prec z) (mode z) (neg z) (fform z) m (exp z))
    (e - fnorm x y m).

(** [Float.Mul]: [z.Mul(x, y)]. *)
Definition Mul (z x y : Float) : outcome Float :=
  let p := if prec z =? 0 then Z.max (prec x) (prec y) else prec z in
  let z1 := mkFloat p (mode z) (xorb (neg x) (neg y)) (fform z) (mant z) (exp z) in
  match fform x, fform y with
  | finite, finite => Return (umul z1 x y)
  | zero, inf | inf, zero => Panic "multiplication of zero with infinity"
  | inf, _ | _, inf =>
      Return (mkFloat p (mode z) (neg z1) inf (mant z) (exp z))
  | _, _ =>
      Return (mkFloat p (mode z) (neg z1) zero (mant z) (exp z))
  end.

(** [Float.MinPrec]. *)
Definition MinPrec (x : Float) : Z :=
  match fform x with
  | finite => bitLen (mant x) - trailingZeroBits (mant x)
  | _ => 0
  end.

(** [Float.IsInt]. *)
Definition IsInt (x : Float) : bool :=
  match fform x with
  | finite =>
      if exp x <=? 0 then false
      else (prec x <=? exp x) || (MinPrec x <=? exp x)
  | zero => true
  | inf => false
  end.

Inductive Accuracy : Type := Below | Exact | Above.

Definition makeAcc (above : bool) : Accuracy :=
  if above then Above else Below.

(** [Float.Int]: truncation towards zero; [nil] for an infinity. *)
Definition Int (x : Float) : option Z * Accuracy :=
  match fform x with
  | finite =>
      if exp x <=? 0 then (Some 0, makeAcc (neg x))
      else
        let allBits := bitLen (mant x) in
        let acc := if MinPrec x <=? exp x then Exact else makeAcc (neg x) in
        let abs :=
          if exp x >? allBits then Z.shiftl (mant x) (exp x - allBits)
          else if exp x <? allBits then Z.shiftr (mant x) (allBits - exp x)
          else mant x in
        (Some (if neg x then - abs else abs), acc)
  | zero => (Some 0, Exact)
  | inf => (None, makeAcc (neg x))
  end.

End big.

(* ================================================================== *)
(** ** Package [time]: the monotonic clock *)

Module time.

(** A [Duration] is an int64 count of nanoseconds; a [Time] taken by
    [time.Now] carries a monotonic clock reading, an int64 count of
    nanoseconds too, and [Sub] and [Since] use only that reading. *)
Definition Duration : Type := Z.
Definition Time : Type := Z.

Definition Second : Duration := 1000000000.
Definition Hour : Duration := 3600 * Second.

Definition maxDuration : Duration := 2 ^ 63 - 1.
Definition minDuration : Duration := - 2 ^ 63.

(** [subMono]: the difference of two readings, saturated to the range of
    [Duration]. *)
Definition subMono (t u : Time) : Duration :=
  if t - u >? maxDuration then maxDuration
  else if t - u <? minDuration then minDuration
  else t - u.

End time.

(* ================================================================== *)
(** ** Package [gas] *)

Module gas.

Definition ETHGasStationURL : string :=
  "https://ethgasstation.info/json/ethgasAPI.json".

Definition GasPriority : Type := string.

Definition GasPriorityFast : GasPriority := "fast".
Definition GasPriorityFastest : GasPriority := "fastest".
Definition GasPrioritySafeLow : GasPriority := "safeLow".
Definition GasPriorityAverage : GasPriority := "average".

Record ethGasStationResponse : Type := mkResponse {
  Fast : float64;
  Fastest : float64;
  SafeLow : float64;
  Average : float64
}.

(** [var prices ethGasStationResponse]: the zero value. *)
Definition zeroResponse : ethGasStationResponse :=
  mkResponse (S754_zero false) (S754_zero false)
             (S754_zero false) (S754_zero false).

Definition keylink : string :=
  "https://data-api.defipulse.com/api/v1/egs/api/ethgasAPI.json?api-key=".

(** What one [http.Get] followed by [Decode(&prices)] does: the request
    fails, or a body arrives and the decoder leaves [decoded] in [prices]
    and returns [derr]. *)
Inductive httpResult : Type :=
| GetFailed (e : error)
| GetBody (decoded : ethGasStationResponse) (derr : option error).

(** Everything outside the manager that the package reads or writes: the
    package variables [keybased] and [key], the remote oracle (the answer
    to the [n]-th request, by URL), the number of requests sent so far, the
    monotonic clock (its [n]-th reading) and the number of readings taken
    so far. *)
Record World : Type := mkWorld {
  keybased : bool;
  key : string;
  oracle : string -> nat -> httpResult;
  fetches : nat;
  clock : nat -> time.Time;
  reads : nat
}.

(** [time.Now()]. *)
Definition time_Now : M World time.Time :=
  fun w =>
    (Return (clock w (reads w)),
     mkWorld (keybased w) (key w) (oracle w) (fetches w)
             (clock w) (S (reads w))).

(** [time.Since(t)]. *)
Definition time_Since (t : time.Time) : M World time.Duration :=
  (now <- time_Now ;; ret (time.subMono now t))%go.

(** [http.Get(url)] and the decoding of its body. *)
Definition http_Get (url : string) : M World httpResult :=
  fun w =>
    (Return (oracle w url (fetches w)),
     mkWorld (keybased w) (key w) (oracle w) (S (fetches w))
             (clock w) (reads w)).

Definition SetKey (k : string) : M World unit :=
  fun w =>
    (Return tt, mkWorld true k (oracle w) (fetches w) (clock w) (reads w)).

Definition loadGasPrices : M World (ethGasStationResponse * option error) :=
  (w <- get ;;
   let prices := zeroResponse in
   if keybased w then
     res <- http_Get (keylink ++ key w) ;;
     match res with
     | GetFailed err => ret (prices, Some err)
     | GetBody decoded (Some err) => ret (decoded, Some err)
     | GetBody decoded None => ret (decoded, None)
     end
   else
     res <- http_Get ETHGasStationURL ;;
     match res with
     | GetFailed err => ret (prices, Some err)
     | GetBody decoded (Some err) => ret (decoded, Some err)
     | GetBody decoded None => ret (decoded, None)
     end)%go.

(** [var conversionFactor = big.NewFloat(100000000)]. *)
Definition conversionFactor_raw : float64 := float64_of_Z 100000000.

Definition conversionFactor : big.Float :=
  Eval vm_compute in
    match big.NewFloat conversionFactor_raw with
    | Return f => f
    | Panic _ => big.new_Float
    end.

Definition ErrNotInteger : error :=
  errors_New "eth: unable to represent gas price as integer".

Definition ErrUnknownPriority : error :=
  errors_New "eth: unknown/unsupported gas priority".

(** [parseGasPriceToWei]: the pair [(wei, err)] the call returns, or the
    panic it raises. *)
Definition parseGasPriceToWei (raw : float64)
  : outcome (option Z * option error) :=
  (x <~ big.NewFloat raw ;;
   gwei <~ big.Mul big.new_Float x conversionFactor ;;
   if negb (big.IsInt gwei) then Return (None, Some ErrNotInteger)
   else
     let (wei, _) := big.Int gwei in
     Return (wei, None))%go.

Definition parseSuggestedGasPrice
    (priority : GasPriority) (prices : ethGasStationResponse)
  : outcome (option Z * option error) :=
  if String.eqb priority GasPriorityFast then
    parseGasPriceToWei (Fast prices)
  else if String.eqb priority GasPriorityFastest then
    parseGasPriceToWei (Fastest prices)
  else if String.eqb priority GasPrioritySafeLow then
    parseGasPriceToWei (SafeLow prices)
  else if String.eqb priority GasPriorityAverage then
    parseGasPriceToWei (Average prices)
  else Return (None, Some ErrUnknownPriority).

Definition SuggestGasPrice (priority : GasPriority)
  : M World (option Z * option error) :=
  ('(prices, err) <- loadGasPrices ;;
   match err with
   | Some e => ret (None, Some e)
   | None => lift_outcome (parseSuggestedGasPrice priority prices)
   end)%go.

Definition SuggestFastGasPrice : M World (option Z * option error) :=
  SuggestGasPrice GasPriorityFast.

(** The embedded [sync.Mutex] is not a field here: [Lock] and the deferred
    [Unlock] make each call of [suggestCachedGasPrice] one uninterrupted
    transition on the manager, which is what the function below is. *)
Record gasPriceManager : Type := mkManager {
  fetchedAt : time.Time;
  maxResultAge : time.Duration;
  latestResponse : ethGasStationResponse
}.

(** The method runs on the manager [m] points to and on the world. *)
Definition St : Type := (gasPriceManager * World)%type.

Definition inWorld {A} (c : M World A) : M St A :=
  fun s =>
    let (r, w') := c (snd s) in (r, (fst s, w')).

Definition this : M St gasPriceManager := fun s => (Return (fst s), s).

Definition set_latestResponse (p : ethGasStationResponse) : M St unit :=
  fun s =>
    (Return tt,
     (mkManager (fetchedAt (fst s)) (maxResultAge (fst s)) p, snd s)).

Definition set_fetchedAt (t : time.Time) : M St unit :=
  fun s =>
    (Return tt,
     (mkManager t (maxResultAge (fst s)) (latestResponse (fst s)), snd s)).

Definition suggestCachedGasPrice (priority : GasPriority)
  : M St (option Z * option error) :=
  (m <- this ;;
   age <- inWorld (time_Since (fetchedAt m)) ;;
   (* [early] holds the values of a [return] inside the [if] block *)
   early <-
     (if age >? maxResultAge m then
        '(prices, err) <- inWorld loadGasPrices ;;
        match err with
        | Some e => ret (Some (None, Some e))
        | None =>
            _ <- set_latestResponse prices ;;
            now <- inWorld time_Now ;;
            _ <- set_fetchedAt now ;;
            ret None
        end
      else ret None) ;;
   match early with
   | Some r => ret r
   | None =>
       m <- this ;;
       lift_outcome (parseSuggestedGasPrice priority (latestResponse m))
   end)%go.

(** [NewGasPriceSuggester].  The closure it returns captures [m] and only
    forwards to [m.suggestCachedGasPrice]; it is represented by the manager
    it captured ([None] for the nil function), and calling it is
    [GasPriceSuggester_call]. *)
Definition GasPriceSuggester : Type := gasPriceManager.

Definition NewGasPriceSuggester (maxResultAge : time.Duration)
  : M World (option GasPriceSuggester * option error) :=
  ('(prices, err) <- loadGasPrices ;;
   match err with
   | Some e => ret (None, Some e)
   | None =>
       now <- time_Now ;;
       let m := mkManager now maxResultAge prices in
       ret (Some m, None)
   end)%go.

Definition GasPriceSuggester_call (priority : GasPriority)
  : M St (option Z * option error) :=
  suggestCachedGasPrice priority.

End gas.

Import gas.

(* ================================================================== *)
(** ** Observations on a state, used to state the properties *)

(** The request the next [loadGasPrices] sends, and its result. *)
Definition next_url (w : World) : string :=
  if keybased w then (keylink ++ key w)%string else ETHGasStationURL.

Definition next_fetch (w : World) : httpResult :=
  oracle w (next_url w) (fetches w).

(** The age [time.Since(m.fetchedAt)] that a call starting in [w] computes. *)
Definition age_at (m : gasPriceManager) (w : World) : time.Duration :=
  time.subMono (clock w (reads w)) (fetchedAt m).

(** The staleness test of [suggestCachedGasPrice]. *)
Definition stale (m : gasPriceManager) (w : World) : bool :=
  age_at m w >? maxResultAge m.

(** The closed set of priorities. *)
Definition known_priority (p : GasPriority) : bool :=
  String.eqb p GasPriorityFast || String.eqb p GasPriorityFastest
  || String.eqb p GasPrioritySafeLow || String.eqb p GasPriorityAverage.

(** What [loadGasPrices] returns for a given result of the request. *)
Definition fetch_outcome (r : httpResult) : ethGasStationResponse * option error :=
  match r with
  | GetFailed e => (zeroResponse, Some e)
  | GetBody decoded derr => (decoded, derr)
  end.

(** The world after one request, and after one clock reading. *)
Definition sent (w : World) : World :=
  mkWorld (keybased w) (key w) (oracle w) (S (fetches w)) (clock w) (reads w).

Definition tick (w : World) : World :=
  mkWorld (keybased w) (key w) (oracle w) (fetches w) (clock w) (S (reads w)).

(** The result and the final state of one call of the cached suggester. *)
Definition call_result (p : GasPriority) (s : St) : outcome (option Z * option error) :=
  fst (GasPriceSuggester_call p s).

Definition call_state (p : GasPriority) (s : St) : St :=
  snd (GasPriceSuggester_call p s).

(* ================================================================== *)
(** ** The conversion over the rationals *)

(** What the converter is meant to compute, stated over [Q] and
    independently of [math/big]: the value of a float64, its exact product
    with [1e8], and the rounding of a rational to a given number of
    significant bits (to nearest, ties to even). *)
Module Exact.

Local Open Scope Q_scope.

(** The number a finite float64 denotes; none for infinities and NaN. *)
Definition float64_value (x : float64) : option Q :=
  match x with
  | S754_zero _ => Some 0
  | S754_finite s m e => Some (inject_Z (if s then Zneg m else Zpos m) * 2 ^ e)
  | _ => None
  end.

(** The magnitude of a finite [big.Float]. *)
Definition magnitude (z : big.Float) : Q :=
  inject_Z (big.mant z) * 2 ^ (big.exp z - big.bitLen (big.mant z)).

(** [z] is a finite [Float] of precision [p] and sign [ng] whose mantissa
    has at most [p] bits and whose magnitude is [N * 2^(e - p)]: what
    [Float.round] leaves when it rounds a mantissa to the integer [N]. *)
Definition rounded_to (p : Z) (ng : bool) (e N : Z) (z : big.Float) : Prop :=
  big.fform z = big.finite /\
  (0 < big.mant z)%Z /\
  (big.bitLen (big.mant z) <= p)%Z /\
  big.prec z = p /\
  big.neg z = ng /\
  magnitude z == inject_Z N * 2 ^ (e - p).

(** [1e8]: tenths of a gwei to wei. *)
Definition factor : Q := 100000000.

(** [raw * 1e8] is exactly the integer [z]. *)
Definition exact_wei (raw : float64) (z : Z) : Prop :=
  exists v, float64_value raw = Some v /\ v * factor == inject_Z z.


(** The nearest integer, ties to the even one. *)
Definition Qrne (q : Q) : Z :=
  let f := Qfloor q in
  match Qcompare (q - inject_Z f) (1 # 2) with
  | Lt => f
  | Gt => (f + 1)%Z
  | Eq => if Z.even f then f else (f + 1)%Z
  end.

(** The binary exponent of [q <> 0]: the [e] with [2^(e-1) <= |q| < 2^e]. *)
Definition Qbinexp (q : Q) : Z :=
  let k := (Z.log2 (Z.abs (Qnum q)) - Z.log2 (Zpos (Qden q)))%Z in
  if Qle_bool (2 ^ k) (Qabs q) then (k + 1)%Z else k.

(** [q] rounded to [p] significant bits: the nearest multiple of
    [2^(e-p)], [e] the binary exponent of [q], ties to the even multiple. *)
Definition round_to_prec (p : Z) (q : Q) : Q :=
  if Qeq_bool q 0 then 0
  else
    let u := 2 ^ (Qbinexp q - p) in
    inject_Z (Qrne (q / u)) * u.

(** The integer [q] is, if it is one. *)
Definition Qint (q : Q) : option Z :=
  if Qeq_bool q (inject_Z (Qfloor q)) then Some (Qfloor q) else None.

(** An integer that fits a significand of [p] bits: [k * 2^j] with
    [|k| < 2^p]. *)
Definition fits_prec (p : Z) (z : Z) : Prop :=
  exists k j : Z, (0 <= j)%Z /\ (Z.abs k < 2 ^ p)%Z /\ z = (k * 2 ^ j)%Z.

(** [e] is the binary exponent of [q]. *)
Definition binexp_of (q : Q) (e : Z) : Prop :=
  2 ^ (e - 1) <= Qabs q /\ Qabs q < 2 ^ e.

End Exact.

Import Exact.

(* ================================================================== *)
(** ** A concrete oracle and clock, used to instantiate the theorems *)

Module Scenario.

(** The quote set of the specification's scenario. *)
Definition quotes : ethGasStationResponse :=
  mkResponse (float64_of_Z 400) (float64_of_Z 500)
             (float64_of_Z 50) (float64_of_Z 200).

Definition quotes' : ethGasStationResponse :=
  mkResponse (float64_of_Z 410) (float64_of_Z 520)
             (float64_of_Z 60) (float64_of_Z 210).

Definition timeout : error := url_Error "Get: dial tcp: i/o timeout".

(** First request answered with [quotes], second one fails, later ones
    answered with [quotes']. *)
Definition oracle (_ : string) (n : nat) : httpResult :=
  match n with
  | O => GetBody quotes None
  | S O => GetFailed timeout
  | _ => GetBody quotes' None
  end.

(** A clock that advances by one millisecond per reading. *)
Definition clock (n : nat) : time.Time := 1000000 * Z.of_nat n.

(** A coarse clock: two successive readings fall into the same tick. *)
Definition coarse_clock (n : nat) : time.Time :=
  1000000 * Z.of_nat (Nat.div2 n).

Definition world (fetched : nat) (read : nat) : World :=
  mkWorld false "" oracle fetched clock read.

Definition coarse_world : World :=
  mkWorld false "" oracle 0 coarse_clock 0.

End Scenario.

(* ================================================================== *)
(** ** Further observations *)

(** The float64 negation [-x] (sign bit flipped; NaN stays NaN). *)
Definition float64_opp (x : float64) : float64 :=
  match x with
  | S754_zero s => S754_zero (negb s)
  | S754_infinity s => S754_infinity (negb s)
  | S754_nan => S754_nan
  | S754_finite s m e => S754_finite (negb s) m e
  end.

(** The state after a sequence of calls of one cached suggester, each with
    its own priority. *)
Fixpoint run_calls (ps : list GasPriority) (s : St) : St :=
  match ps with
  | nil => s
  | p :: ps' => run_calls ps' (call_state p s)
  end.

(** The endpoint configuration of a world: the two package variables. *)
Definition endpoint (w : World) : bool * string := (keybased w, key w).

(** The clock never goes backwards, as a monotonic clock. *)
Definition monotone_clock (w : World) : Prop :=
  forall n : nat, clock w n <= clock w (S n).

(** The quote a priority selects in a quote set; none for a priority
    outside the closed set. *)
Definition quote_of (p : GasPriority) (prices : ethGasStationResponse)
  : option float64 :=
  if String.eqb p "fast" then Some (Fast prices)
  else if String.eqb p "fastest" then Some (Fastest prices)
  else if String.eqb p "safeLow" then Some (SafeLow prices)
  else if String.eqb p "average" then Some (Average prices)
  else None.

(** What a quote converts to, over the rationals: its exact product with
    [1e8] rounded to 53 significant bits, as an amount if that is an
    integer, and the not-an-integer error otherwise (also for an
    infinity). *)
Definition rounded_conversion (raw : float64)
  : outcome (option Z * option error) :=
  match float64_value raw with
  | Some v =>
      match Qint (round_to_prec 53 (v * factor)) with
      | Some z => Return (Some z, None)
      | None => Return (None, Some ErrNotInteger)
      end
  | None => Return (None, Some ErrNotInteger)
  end.

(** An oracle that always answers with one-decimal quotes
    [{fast: 1.1, fastest: 2.2, safeLow: 0.5, average: 1}], as
    [encoding/json] decodes them, and a clock that advances by one
    millisecond per reading. *)
Definition fractional_quotes : ethGasStationResponse :=
  mkResponse (float64_of_decimal 11 10) (float64_of_decimal 22 10)
             (float64_of_decimal 5 10) (float64_of_Z 1).

Definition fractional_world : World :=
  mkWorld false "" (fun _ _ => GetBody fractional_quotes None) 0
          Scenario.clock 0.

(** [2^-53], half a unit in the last place of a 53-bit significand in
    [1/2, 1). *)
Definition half_ulp53 : Q := 1 # 9007199254740992.

Arguments loadGasPrices : simpl never.
Arguments parseSuggestedGasPrice : simpl never.
Arguments parseGasPriceToWei : simpl never.

(* ================================================================== *)
(** ** Rounding over the rationals *)

Section Pow2.
Local Open Scope Q_scope.

Lemma pow2_pos (e : Z) : 0 < 2 ^ e.
Proof. apply Qpower_0_lt. reflexivity. Qed.

Lemma pow2_nonzero (e : Z) : ~ 2 ^ e == 0.
Proof. intros H. pose proof (pow2_pos e) as P. rewrite H in P. discriminate P. Qed.

Lemma pow2_add (a b : Z) : 2 ^ (a + b) == 2 ^ a * 2 ^ b.
Proof. apply Qpower_plus. discriminate. Qed.

Lemma pow2_sub (a b : Z) : 2 ^ (a - b) == 2 ^ a / 2 ^ b.
Proof.
  unfold Z.sub. rewrite pow2_add, Qpower_opp. reflexivity.
Qed.

Lemma pow2_inject (k : Z) : (0 <= k)%Z -> 2 ^ k == inject_Z (2 ^ k).
Proof. intros H. rewrite Zpower_Qpower by assumption. reflexivity. Qed.

Lemma pow2_lt (a b : Z) : (a < b)%Z -> 2 ^ a < 2 ^ b.
Proof. intros H. apply Qpower_lt_compat_l; [assumption|reflexivity]. Qed.

Lemma pow2_le (a b : Z) : (a <= b)%Z -> 2 ^ a <= 2 ^ b.
Proof. intros H. apply Qpower_le_compat_l; [assumption|discriminate]. Qed.

Lemma pow2_lt_inv (a b : Z) : 2 ^ a < 2 ^ b -> (a < b)%Z.
Proof. intros H. apply (Qpower_lt_compat_l_inv 2); [assumption|reflexivity]. Qed.

(** A power of two as a fraction of two integer powers. *)
Lemma pow2_frac (a b : Z) :
  (0 <= a)%Z -> (0 <= b)%Z -> 2 ^ (a - b) == (2 ^ a)%Z # Z.to_pos (2 ^ b).
Proof.
  intros Ha Hb. rewrite pow2_sub, !pow2_inject by assumption.
  rewrite Qmake_Qdiv, Z2Pos.id by (apply Z.pow_pos_nonneg; lia).
  reflexivity.
Qed.

End Pow2.

Section Binexp.
Local Open Scope Q_scope.

Lemma binexp_of_unique (q : Q) (e e' : Z) :
  binexp_of q e -> binexp_of q e' -> e = e'.
Proof.
  intros [L U] [L' U'].
  assert (H1 : (e - 1 < e')%Z).
  { apply pow2_lt_inv. eapply Qle_lt_trans; eassumption. }
  assert (H2 : (e' - 1 < e)%Z).
  { apply pow2_lt_inv. eapply Qle_lt_trans; eassumption. }
  lia.
Qed.

Lemma Qbinexp_spec (q : Q) : ~ q == 0 -> binexp_of q (Qbinexp q).
Proof.
  destruct q as [n d]. intros Hq.
  assert (Ha : (0 < Z.abs n)%Z).
  { assert (n <> 0%Z); [|lia]. intros ->. apply Hq. reflexivity. }
  unfold Qbinexp, binexp_of. cbn [Qnum Qden].
  set (a := Z.abs n) in *.
  set (la := Z.log2 a). set (ld := Z.log2 (Zpos d)).
  assert (Hla : (2 ^ la <= a < 2 ^ (la + 1))%Z).
  { apply (Z.log2_spec a). assumption. }
  assert (Hld : (2 ^ ld <= Zpos d < 2 ^ (ld + 1))%Z).
  { apply (Z.log2_spec (Zpos d)). reflexivity. }
  assert (Hla0 : (0 <= la)%Z) by apply Z.log2_nonneg.
  assert (Hld0 : (0 <= ld)%Z) by apply Z.log2_nonneg.
  assert (Habs : Qabs (n # d) = (a # d)) by reflexivity.
  rewrite Habs.
  assert (Plo : 2 ^ (la - ld - 1) <= a # d).
  { replace (la - ld - 1)%Z with (la - (ld + 1))%Z by ring.
    rewrite pow2_frac by lia.
    unfold Qle. cbn [Qnum Qden]. rewrite Z2Pos.id by (apply Z.pow_pos_nonneg; lia).
    nia. }
  assert (Phi : a # d < 2 ^ (la - ld + 1)).
  { replace (la - ld + 1)%Z with ((la + 1) - ld)%Z by ring.
    rewrite pow2_frac by lia.
    unfold Qlt. cbn [Qnum Qden]. rewrite Z2Pos.id by (apply Z.pow_pos_nonneg; lia).
    nia. }
  destruct (Qle_bool (2 ^ (la - ld)) (a # d)) eqn:E.
  - apply Qle_bool_iff in E. split; [|exact Phi].
    replace (la - ld + 1 - 1)%Z with (la - ld)%Z by ring. exact E.
  - split; [exact Plo|].
    apply Qnot_le_lt. intros C. apply Qle_bool_iff in C. congruence.
Qed.

Lemma Qbinexp_unique (q : Q) (e : Z) : binexp_of q e -> Qbinexp q = e.
Proof.
  intros H. apply (binexp_of_unique q); [|exact H].
  apply Qbinexp_spec. intros Hq. destruct H as [L _].
  rewrite Hq in L. cbn in L.
  apply (Qlt_irrefl 0). eapply Qlt_le_trans; [apply (pow2_pos (e - 1))|exact L].
Qed.

End Binexp.

Section Rne.
Local Open Scope Q_scope.

Lemma Qrne_comp (p q : Q) : p == q -> Qrne p = Qrne q.
Proof.
  intros H. unfold Qrne. rewrite (Qfloor_comp _ _ H).
  assert (E : p - inject_Z (Qfloor q) == q - inject_Z (Qfloor q)) by (rewrite H; reflexivity).
  rewrite (Qcompare_comp _ _ E (1 # 2) (1 # 2) (Qeq_refl _)). reflexivity.
Qed.

Lemma Qrne_inject (z : Z) : Qrne (inject_Z z) = z.
Proof.
  unfold Qrne. rewrite Qfloor_Z.
  assert (E : inject_Z z - inject_Z z == 0) by ring.
  rewrite (Qcompare_comp _ _ E (1 # 2) (1 # 2) (Qeq_refl _)). reflexivity.
Qed.

(** Rounding [n / d] from the quotient and remainder of the division. *)
Lemma Qrne_div (n d : Z) :
  (0 < d)%Z ->
  Qrne (inject_Z n / inject_Z d) =
  match (2 * (n mod d) ?= d)%Z with
  | Lt => (n / d)%Z
  | Gt => (n / d + 1)%Z
  | Eq => if Z.even (n / d) then (n / d)%Z else (n / d + 1)%Z
  end.
Proof.
  intros Hd. unfold Qrne. rewrite <- Zdiv_Qdiv.
  assert (Hnz : ~ inject_Z d == 0).
  { intros C. apply (inject_Z_injective d 0) in C. lia. }
  assert (E : inject_Z n / inject_Z d - inject_Z (n / d)
              == inject_Z (n mod d) / inject_Z d).
  { rewrite (Z.div_mod n d) at 1 by lia.
    rewrite inject_Z_plus, inject_Z_mult. field. exact Hnz. }
  rewrite (Qcompare_comp _ _ E (1 # 2) (1 # 2) (Qeq_refl _)).
  assert (Hdq : inject_Z 0 < inject_Z d) by (rewrite <- Zlt_Qlt; exact Hd).
  change (inject_Z 0) with 0 in Hdq.
  destruct (Z.compare_spec (2 * (n mod d)) d) as [C|C|C].
  - assert (Q1 : inject_Z (n mod d) / inject_Z d == 1 # 2).
    { assert (Ed : inject_Z d == 2 * inject_Z (n mod d)).
      { rewrite <- C at 1. rewrite inject_Z_mult. reflexivity. }
      rewrite Ed. field.
      intros K. apply (inject_Z_injective (n mod d) 0) in K. lia. }
    rewrite (proj1 (Qeq_alt _ _) Q1). reflexivity.
  - assert (Q1 : inject_Z (n mod d) / inject_Z d < 1 # 2).
    { apply Qlt_shift_div_r; [exact Hdq|].
      apply (Qmult_lt_l _ _ 2); [reflexivity|].
      setoid_replace (2 * ((1 # 2) * inject_Z d)) with (inject_Z d) by ring.
      change 2 with (inject_Z 2). rewrite <- inject_Z_mult, <- Zlt_Qlt. exact C. }
    rewrite (proj1 (Qlt_alt _ _) Q1). reflexivity.
  - assert (Q1 : inject_Z (n mod d) / inject_Z d > 1 # 2).
    { apply Qlt_shift_div_l; [exact Hdq|].
      apply (Qmult_lt_l _ _ 2); [reflexivity|].
      setoid_replace (2 * ((1 # 2) * inject_Z d)) with (inject_Z d) by ring.
      change 2 with (inject_Z 2). rewrite <- inject_Z_mult, <- Zlt_Qlt. exact C. }
    rewrite (proj1 (Qgt_alt _ _) Q1). reflexivity.
Qed.

Lemma Qrne_opp (q : Q) : Qrne (- q) = (- Qrne q)%Z.
Proof.
  destruct q as [n d].
  assert (E1 : n # d == inject_Z n / inject_Z (Zpos d)) by apply Qmake_Qdiv.
  assert (E2 : - (n # d) == inject_Z (- n) / inject_Z (Zpos d)).
  { rewrite E1, inject_Z_opp. field. discriminate. }
  rewrite (Qrne_comp _ _ E1), (Qrne_comp _ _ E2), !Qrne_div by reflexivity.
  set (D := Zpos d). assert (HD : (0 < D)%Z) by reflexivity.
  destruct (Z.eq_dec (n mod D) 0) as [Hz|Hnz].
  - rewrite (Z.mod_opp_l_z n D), (Z.div_opp_l_z n D), Hz by lia.
    destruct (2 * 0 ?= D)%Z eqn:C; try reflexivity.
    + apply Z.compare_eq in C. lia.
    + apply Z.compare_gt_iff in C. lia.
  - rewrite (Z.mod_opp_l_nz n D), (Z.div_opp_l_nz n D) by lia.
    pose proof (Z.mod_pos_bound n D HD) as B.
    destruct (Z.compare_spec (2 * (n mod D)) D) as [C|C|C];
      destruct (Z.compare_spec (2 * (D - n mod D)) D) as [C'|C'|C']; try lia.
    + replace (- (n / D) - 1)%Z with (- (n / D + 1))%Z by ring.
      rewrite Z.even_opp, Z.even_add. cbn.
      destruct (Z.even (n / D)); cbn; ring.
Qed.

(** The rounding bit and the sticky bit of [Float.round] locate the
    remainder with respect to one half. *)
Lemma round_bits (M r : Z) :
  (0 <= M)%Z -> (0 <= r)%Z ->
  Z.shiftr M (r + 1) = (M / 2 ^ (r + 1))%Z /\
  match (2 * (M mod 2 ^ (r + 1)) ?= 2 ^ (r + 1))%Z with
  | Lt => Z.testbit M r = false
  | Eq => Z.testbit M r = true /\ (M mod 2 ^ r =? 0)%Z = true
  | Gt => Z.testbit M r = true /\ (M mod 2 ^ r =? 0)%Z = false
  end.
Proof.
  intros HM Hr. split; [apply Z.shiftr_div_pow2; lia|].
  assert (P : (0 < 2 ^ r)%Z) by (apply Z.pow_pos_nonneg; lia).
  assert (E : (2 ^ (r + 1) = 2 * 2 ^ r)%Z) by (rewrite Z.pow_add_r by lia; ring).
  set (t := (M / 2 ^ r)%Z). set (r0 := (M mod 2 ^ r)%Z).
  assert (HMt : (M = 2 ^ r * t + r0)%Z) by (apply Z.div_mod; lia).
  assert (Br0 : (0 <= r0 < 2 ^ r)%Z) by (apply Z.mod_pos_bound; lia).
  assert (Bt : (0 <= t mod 2 < 2)%Z) by (apply Z.mod_pos_bound; lia).
  assert (Ht : (t = 2 * (t / 2) + t mod 2)%Z) by (apply Z.div_mod; lia).
  assert (Hmod : (M mod 2 ^ (r + 1) = 2 ^ r * (t mod 2) + r0)%Z).
  { symmetry. apply (Z.mod_unique M (2 ^ (r + 1)) (t / 2)); [left; nia|]. nia. }
  rewrite Hmod, E.
  destruct (Z.eq_dec (t mod 2) 0) as [B0|B1].
  - assert (Hb : Z.testbit M r = false) by (apply Z.testbit_false; [lia|exact B0]).
    rewrite B0. destruct (Z.compare_spec (2 * (2 ^ r * 0 + r0)) (2 * 2 ^ r)); try lia.
    exact Hb.
  - assert (B1' : (t mod 2 = 1)%Z) by lia.
    assert (Hb : Z.testbit M r = true) by (apply Z.testbit_true; [lia|exact B1']).
    rewrite B1'.
    destruct (Z.compare_spec (2 * (2 ^ r * 1 + r0)) (2 * 2 ^ r)); try lia.
    + split; [exact Hb|]. apply Z.eqb_eq. lia.
    + split; [exact Hb|]. apply Z.eqb_neq. lia.
Qed.

End Rne.

Section RoundToPrec.
Local Open Scope Q_scope.

Lemma Qbinexp_comp (p q : Q) : ~ q == 0 -> p == q -> Qbinexp p = Qbinexp q.
Proof.
  intros Hq E. apply Qbinexp_unique.
  destruct (Qbinexp_spec q Hq) as [L U]. split; rewrite E; assumption.
Qed.

Lemma round_to_prec_comp (n : Z) (p q : Q) :
  p == q -> round_to_prec n p == round_to_prec n q.
Proof.
  intros E. unfold round_to_prec.
  rewrite (Qeqb_comp _ _ E 0 0 (Qeq_refl 0)).
  destruct (Qeq_bool q 0) eqn:Z0; [reflexivity|].
  apply Qeq_bool_neq in Z0.
  rewrite (Qbinexp_comp p q Z0 E).
  assert (E' : p / 2 ^ (Qbinexp q - n) == q / 2 ^ (Qbinexp q - n)) by (rewrite E; reflexivity).
  rewrite (Qrne_comp _ _ E'). reflexivity.
Qed.

Lemma round_to_prec_opp (n : Z) (q : Q) :
  round_to_prec n (- q) == - round_to_prec n q.
Proof.
  unfold round_to_prec.
  assert (Ez : Qeq_bool (- q) 0 = Qeq_bool q 0).
  { apply eq_true_iff_eq. rewrite !Qeq_bool_iff. split; intros H.
    - rewrite <- (Qopp_involutive q), H. reflexivity.
    - rewrite H. reflexivity. }
  rewrite Ez. destruct (Qeq_bool q 0) eqn:Z0; [reflexivity|].
  apply Qeq_bool_neq in Z0.
  assert (Eb : Qbinexp (- q) = Qbinexp q).
  { apply Qbinexp_unique. destruct (Qbinexp_spec q Z0) as [L U].
    split; rewrite Qabs_opp; assumption. }
  rewrite Eb.
  assert (E' : - q / 2 ^ (Qbinexp q - n) == - (q / 2 ^ (Qbinexp q - n))).
  { field. apply pow2_nonzero. }
  rewrite (Qrne_comp _ _ E'), Qrne_opp, inject_Z_opp. ring.
Qed.

Lemma round_to_prec_0 (n : Z) (q : Q) : q == 0 -> round_to_prec n q == 0.
Proof.
  intros E. unfold round_to_prec. rewrite (Qeq_eq_bool _ _ E). reflexivity.
Qed.

End RoundToPrec.

(* ================================================================== *)
(** ** [Float.round] computes [round_to_prec] *)

Section BitLen.

Lemma bitLen_bounds (M : Z) :
  0 < M -> 2 ^ (big.bitLen M - 1) <= M < 2 ^ big.bitLen M.
Proof.
  intros H. unfold big.bitLen.
  replace (Z.log2 M + 1 - 1) with (Z.log2 M) by ring.
  apply (Z.log2_spec M H).
Qed.

Lemma bitLen_unique (M b : Z) :
  1 <= b -> 2 ^ (b - 1) <= M < 2 ^ b -> big.bitLen M = b.
Proof.
  intros Hb H. unfold big.bitLen.
  rewrite (Z.log2_unique M (b - 1)); [ring|lia|].
  replace (Z.succ (b - 1)) with b by lia. exact H.
Qed.

Lemma bitLen_pos (M : Z) : 1 <= big.bitLen M.
Proof. unfold big.bitLen. pose proof (Z.log2_nonneg M). lia. Qed.

Lemma bitLen_digits (m : positive) :
  big.bitLen (Zpos m) = Zpos (digits2_pos m).
Proof.
  unfold big.bitLen.
  assert (H : forall p, Pos.size p = digits2_pos p).
  { induction p; cbn; congruence. }
  destruct m; cbn; rewrite ?H; lia.
Qed.

End BitLen.

Section Dyadic.
Local Open Scope Q_scope.

Lemma inject_Z_pos (M : Z) : (0 < M)%Z -> 0 < inject_Z M.
Proof. intros H. change 0 with (inject_Z 0). rewrite <- Zlt_Qlt. exact H. Qed.

Lemma dyadic_pos (M E : Z) : (0 < M)%Z -> 0 < inject_Z M * 2 ^ E.
Proof.
  intros H. apply Qmult_lt_0_compat; [apply inject_Z_pos; exact H|apply pow2_pos].
Qed.

Lemma binexp_dyadic (M E : Z) :
  (0 < M)%Z -> binexp_of (inject_Z M * 2 ^ E) (big.bitLen M + E).
Proof.
  intros H. destruct (bitLen_bounds M H) as [L U].
  pose proof (bitLen_pos M) as Hb.
  unfold binexp_of.
  rewrite Qabs_pos by (apply Qlt_le_weak, dyadic_pos; exact H).
  split.
  - replace (big.bitLen M + E - 1)%Z with ((big.bitLen M - 1) + E)%Z by ring.
    rewrite pow2_add, pow2_inject by lia.
    apply Qmult_le_compat_r; [|apply Qlt_le_weak, pow2_pos].
    rewrite <- Zle_Qle. exact L.
  - rewrite pow2_add, (pow2_inject (big.bitLen M)) by lia.
    apply Qmult_lt_compat_r; [apply pow2_pos|].
    rewrite <- Zlt_Qlt. exact U.
Qed.

Lemma scale_div_div (m x y : Q) :
  ~ x == 0 -> ~ y == 0 -> m * x / (x / y) == m * y.
Proof. intros Hx Hy. field. split; assumption. Qed.

Lemma scale_mul_div (m x y : Q) :
  ~ x == 0 -> ~ y == 0 -> m * y * (x / y) == m * x.
Proof. intros Hx Hy. field. assumption. Qed.

Lemma scale_div_mul (m x y : Q) :
  ~ x == 0 -> ~ y == 0 -> m * x / (x * y) == m / y.
Proof. intros Hx Hy. field. split; assumption. Qed.

(** Rounding a dyadic number [M * 2^E] to [p] bits: nothing to do when [M]
    has at most [p] bits; otherwise the integer [M / 2^(b-p)] is rounded. *)
Lemma round_to_prec_dyadic (p M E : Z) :
  (0 < M)%Z ->
  round_to_prec p (inject_Z M * 2 ^ E) ==
  if (big.bitLen M <=? p)%Z then inject_Z M * 2 ^ E
  else inject_Z (Qrne (inject_Z M / inject_Z (2 ^ (big.bitLen M - p))))
       * 2 ^ (E + big.bitLen M - p).
Proof.
  intros H. set (b := big.bitLen M).
  assert (Hnz : ~ inject_Z M * 2 ^ E == 0).
  { intros C. pose proof (dyadic_pos M E H) as P. rewrite C in P. discriminate P. }
  unfold round_to_prec.
  destruct (Qeq_bool (inject_Z M * 2 ^ E) 0) eqn:Z0.
  { apply Qeq_bool_iff in Z0. contradiction. }
  rewrite (Qbinexp_unique _ _ (binexp_dyadic M E H)). fold b.
  pose proof (pow2_nonzero E) as NE.
  destruct (Z.leb_spec b p) as [Hle|Hgt].
  - pose proof (pow2_nonzero (p - b)) as NS.
    assert (Eu : 2 ^ (b + E - p) == 2 ^ E / 2 ^ (p - b)).
    { replace (b + E - p)%Z with (E - (p - b))%Z by ring. apply pow2_sub. }
    assert (Es : inject_Z (M * 2 ^ (p - b)) == inject_Z M * 2 ^ (p - b)).
    { rewrite inject_Z_mult, <- (pow2_inject (p - b)) by lia. reflexivity. }
    assert (Eq1 : inject_Z M * 2 ^ E / 2 ^ (b + E - p)
                  == inject_Z (M * 2 ^ (p - b))).
    { rewrite Es, Eu. apply scale_div_div; assumption. }
    rewrite (Qrne_comp _ _ Eq1), Qrne_inject, Es, Eu.
    apply scale_mul_div; assumption.
  - pose proof (pow2_nonzero (b - p)) as NS.
    assert (Eu : 2 ^ (b + E - p) == 2 ^ E * 2 ^ (b - p)).
    { replace (b + E - p)%Z with (E + (b - p))%Z by ring. apply pow2_add. }
    assert (Eq1 : inject_Z M * 2 ^ E / 2 ^ (b + E - p)
                  == inject_Z M / inject_Z (2 ^ (b - p))).
    { rewrite <- (pow2_inject (b - p)), Eu by lia.
      apply scale_div_mul; assumption. }
    rewrite (Qrne_comp _ _ Eq1).
    replace (E + b - p)%Z with (b + E - p)%Z by ring. reflexivity.
Qed.

End Dyadic.

Section FloatRound.
Local Open Scope Q_scope.

Lemma quotient_bounds (M p r : Z) :
  (1 <= p)%Z -> (0 <= r)%Z -> (0 < M)%Z -> big.bitLen M = (p + r + 1)%Z ->
  (2 ^ (p - 1) <= M / 2 ^ (r + 1) < 2 ^ p)%Z.
Proof.
  intros Hp Hr HM Hb. destruct (bitLen_bounds M HM) as [L U]. rewrite Hb in L, U.
  assert (P : (0 < 2 ^ (r + 1))%Z) by (apply Z.pow_pos_nonneg; lia).
  split.
  - apply Z.div_le_lower_bound; [exact P|].
    rewrite <- Z.pow_add_r by lia.
    replace (r + 1 + (p - 1))%Z with (p + r + 1 - 1)%Z by ring. exact L.
  - apply Z.div_lt_upper_bound; [exact P|].
    rewrite <- Z.pow_add_r by lia.
    replace (r + 1 + p)%Z with (p + r + 1)%Z by ring. exact U.
Qed.

(** [Float.round], to nearest even, is [round_to_prec] on the magnitude and
    leaves a mantissa of at most [prec] bits. *)
Lemma round_correct (z : big.Float) :
  big.fform z = big.finite ->
  (0 < big.mant z)%Z ->
  (1 <= big.prec z)%Z ->
  big.mode z = big.ToNearestEven ->
  (big.exp z < big.MaxExp)%Z ->
  big.fform (big.round z) = big.finite /\
  (0 < big.mant (big.round z))%Z /\
  (big.bitLen (big.mant (big.round z)) <= big.prec z)%Z /\
  big.prec (big.round z) = big.prec z /\
  big.neg (big.round z) = big.neg z /\
  magnitude (big.round z) == round_to_prec (big.prec z) (magnitude z).
Proof.
  destruct z as [p md ng f M e]. cbn [big.fform big.mant big.prec big.mode big.exp big.neg].
  intros -> HM Hp -> He.
  unfold magnitude at 2. cbn [big.mant big.exp].
  rewrite (round_to_prec_dyadic p M (e - big.bitLen M) HM).
  unfold big.round. cbn [big.fform big.mant big.prec big.mode big.exp big.neg].
  destruct (Z.leb_spec (big.bitLen M) p) as [Hle|Hgt].
  { cbn [big.fform big.mant big.prec big.mode big.exp big.neg].
    repeat split; try assumption. }
  set (r := (big.bitLen M - p - 1)%Z).
  assert (Hr : (0 <= r)%Z) by (unfold r; lia).
  assert (Hb : big.bitLen M = (p + r + 1)%Z) by (unfold r; ring).
  replace (big.bitLen M - p)%Z with (r + 1)%Z by (unfold r; ring).
  replace (e - big.bitLen M + big.bitLen M - p)%Z with (e - p)%Z by ring.
  destruct (round_bits M r (Z.lt_le_incl _ _ HM) Hr) as [Hq Hbits].
  rewrite Hq. set (q := (M / 2 ^ (r + 1))%Z) in *.
  pose proof (quotient_bounds M p r Hp Hr HM Hb) as Bq. fold q in Bq.
  assert (P2 : (0 < 2 ^ (r + 1))%Z) by (apply Z.pow_pos_nonneg; lia).
  rewrite (Qrne_div M (2 ^ (r + 1)) P2). fold q.
  assert (Lq : big.bitLen q = p) by (apply bitLen_unique; assumption).
  match goal with
  | |- context [if (q + 1 =? 2 ^ p)%Z then ?a else ?b] =>
      set (up := if (q + 1 =? 2 ^ p)%Z then a else b)
  end.
  set (down := big.mkFloat p big.ToNearestEven ng big.finite q e).
  assert (Kdown : rounded_to p ng e q down).
  { assert (0 < 2 ^ (p - 1))%Z by (apply Z.pow_pos_nonneg; lia).
    unfold rounded_to, magnitude, down. cbn [big.fform big.mant big.prec big.exp big.neg].
    rewrite Lq. repeat split; try lia. }
  assert (Kup : rounded_to p ng e (q + 1) up).
  { unfold up. destruct (Z.eqb_spec (q + 1) (2 ^ p)) as [Ov|NOv].
    - destruct (Z.geb_spec e big.MaxExp) as [C|_]; [lia|].
      assert (Pp : (0 < 2 ^ (p - 1))%Z) by (apply Z.pow_pos_nonneg; lia).
      assert (Lp : big.bitLen (2 ^ (p - 1)) = p).
      { apply bitLen_unique; [lia|]. split; [lia|]. apply Z.pow_lt_mono_r; lia. }
      unfold rounded_to, magnitude.
      cbn [big.fform big.mant big.prec big.exp big.neg]. rewrite Lp.
      repeat split; try lia.
      rewrite Ov, <- !pow2_inject, <- !pow2_add by lia.
      replace (p - 1 + (e + 1 - p))%Z with (p + (e - p))%Z by ring. reflexivity.
    - assert (Lq1 : big.bitLen (q + 1) = p) by (apply bitLen_unique; lia).
      unfold rounded_to, magnitude.
      cbn [big.fform big.mant big.prec big.exp big.neg]. rewrite Lq1.
      repeat split; try lia. }
  unfold rounded_to in Kdown, Kup.
  destruct (2 * (M mod 2 ^ (r + 1)) ?= 2 ^ (r + 1))%Z.
  - destruct Hbits as [Hrb Hst]. rewrite Hrb, Hst. cbn [negb orb andb].
    rewrite <- Z.negb_even. destruct (Z.even q); cbn [negb]; assumption.
  - rewrite Hbits. cbn [orb andb].
    destruct (negb (M mod 2 ^ r =? 0)%Z); assumption.
  - destruct Hbits as [Hrb Hst]. rewrite Hrb, Hst. cbn [negb orb andb]. assumption.
Qed.

End FloatRound.

(* ================================================================== *)
(** ** [IsInt] and [Int] *)

Section IsIntInt.
Local Open Scope Q_scope.

(** A positive mantissa is an odd number times [2 ^ trailingZeroBits]. *)
Lemma pos_ctz_spec (p : positive) :
  (0 <= big.pos_ctz p)%Z /\
  exists o, (0 <= o)%Z /\ Zpos p = ((2 * o + 1) * 2 ^ big.pos_ctz p)%Z.
Proof.
  induction p as [p _|p [IH0 [o [Ho IH]]]|].
  - split; [cbn; lia|]. exists (Zpos p). split; [lia|].
    cbn [big.pos_ctz]. rewrite Z.pow_0_r. lia.
  - split; [cbn [big.pos_ctz]; lia|]. exists o. split; [exact Ho|].
    cbn [big.pos_ctz]. rewrite Z.pow_add_r, Pos2Z.inj_xO, IH by lia. ring.
  - split; [cbn; lia|]. exists 0%Z. split; [lia|]. reflexivity.
Qed.

Lemma odd_times_pow2_not_integer (o j z : Z) :
  (j < 0)%Z -> ~ inject_Z (2 * o + 1) * 2 ^ j == inject_Z z.
Proof.
  intros Hj C.
  assert (E : inject_Z (2 * o + 1) == inject_Z (z * 2 ^ (- j))).
  { rewrite inject_Z_mult, <- (pow2_inject (- j)) by lia.
    rewrite <- C, <- Qmult_assoc, <- pow2_add.
    replace (j + - j)%Z with 0%Z by ring. cbn. ring. }
  apply (proj1 (inject_Z_injective _ _)) in E.
  replace (- j)%Z with (1 + (- j - 1))%Z in E by ring.
  rewrite Z.pow_add_r in E by lia.
  replace (z * (2 ^ 1 * 2 ^ (- j - 1)))%Z
    with (2 * (z * 2 ^ (- j - 1)))%Z in E by ring.
  lia.
Qed.

(** For a finite [Float] whose mantissa has at most [prec] bits, [IsInt]
    holds exactly when the magnitude is an integer, and then [Int] is that
    integer with the sign. *)
Lemma IsInt_Int_correct (g : big.Float) :
  big.fform g = big.finite ->
  (0 < big.mant g)%Z ->
  (big.bitLen (big.mant g) <= big.prec g)%Z ->
  if big.IsInt g then
    exists N, magnitude g == inject_Z N /\
              fst (big.Int g) = Some (if big.neg g then (- N)%Z else N)
  else forall z, ~ magnitude g == inject_Z z.
Proof.
  destruct g as [p md ng f M e].
  cbn [big.fform big.mant big.prec big.mode big.exp big.neg].
  intros -> HM Hp.
  destruct M as [|m|m]; try lia.
  destruct (pos_ctz_spec m) as [Htz [o [Ho HMo]]].
  set (M := Zpos m) in *. set (tz := big.pos_ctz m) in *.
  set (b := big.bitLen M) in *.
  destruct (bitLen_bounds M HM) as [Lb Ub]. fold b in Lb, Ub.
  assert (P2 : (0 < 2 ^ tz)%Z) by (apply Z.pow_pos_nonneg; lia).
  pose proof (bitLen_pos M) as Hb1. fold b in Hb1.
  assert (Htzb : (tz < b)%Z).
  { apply (Z.pow_lt_mono_r_iff 2); [lia|lia|]. nia. }
  unfold big.IsInt, big.Int, big.MinPrec, magnitude.
  cbn [big.fform big.mant big.prec big.mode big.exp big.neg].
  change (big.trailingZeroBits M) with tz. fold b.
  assert (Hmag : inject_Z M * 2 ^ (e - b) == inject_Z (2 * o + 1) * 2 ^ (tz + e - b)).
  { rewrite HMo, inject_Z_mult, <- (pow2_inject tz), <- Qmult_assoc, <- pow2_add by lia.
    replace (tz + (e - b))%Z with (tz + e - b)%Z by ring. reflexivity. }
  assert (Hno : (b - tz <=? e)%Z = false -> forall z, ~ inject_Z M * 2 ^ (e - b) == inject_Z z).
  { intros C z. rewrite Hmag. apply odd_times_pow2_not_integer.
    apply Z.leb_gt in C. lia. }
  destruct (Z.leb_spec e 0) as [He0|He0].
  { apply Hno. apply Z.leb_gt. lia. }
  destruct (Z.leb_spec (b - tz) e) as [Hi|Hi].
  2:{ destruct (Z.leb_spec p e) as [C|C]; [lia|]. cbn [orb].
      apply Hno. reflexivity. }
  rewrite orb_true_r.
  set (N := ((2 * o + 1) * 2 ^ (tz + e - b))%Z).
  exists N. split.
  - rewrite Hmag. unfold N. rewrite inject_Z_mult, <- pow2_inject by lia. reflexivity.
  - cbn [fst]. f_equal.
    assert (HN : (if (e >? b)%Z then Z.shiftl M (e - b)
                  else if (e <? b)%Z then Z.shiftr M (b - e) else M) = N).
    { destruct (Z.gtb_spec e b) as [C1|C1].
      - rewrite Z.shiftl_mul_pow2 by lia. unfold N. rewrite HMo.
        replace (tz + e - b)%Z with (tz + (e - b))%Z by ring.
        rewrite Z.pow_add_r by lia. ring.
      - destruct (Z.ltb_spec e b) as [C2|C2].
        + rewrite Z.shiftr_div_pow2 by lia.
          assert (EM : M = (N * 2 ^ (b - e))%Z).
          { unfold N. rewrite HMo, <- Z.mul_assoc, <- Z.pow_add_r by lia.
            replace (tz + e - b + (b - e))%Z with tz by ring. reflexivity. }
          rewrite EM. apply Z.div_mul.
          apply Z.pow_nonzero; lia.
        + assert (e = b) by lia. subst e. unfold N. rewrite HMo.
          replace (tz + b - b)%Z with tz by ring. reflexivity. }
    rewrite HN. reflexivity.
Qed.

Lemma Qint_inject (q : Q) (z : Z) : q == inject_Z z -> Qint q = Some z.
Proof.
  intros E. unfold Qint. rewrite (Qfloor_comp _ _ E), Qfloor_Z.
  rewrite (Qeq_eq_bool _ _ E). reflexivity.
Qed.

Lemma Qint_not_integer (q : Q) :
  (forall z, ~ q == inject_Z z) -> Qint q = None.
Proof.
  intros H. unfold Qint.
  destruct (Qeq_bool q (inject_Z (Qfloor q))) eqn:E; [|reflexivity].
  apply Qeq_bool_iff in E. destruct (H _ E).
Qed.

Lemma Qint_Some (q : Q) (z : Z) : Qint q = Some z -> q == inject_Z z.
Proof.
  unfold Qint. destruct (Qeq_bool q (inject_Z (Qfloor q))) eqn:E; [|discriminate].
  intros [= <-]. apply Qeq_bool_iff. exact E.
Qed.

End IsIntInt.

(* ================================================================== *)
(** ** The converter *)

Section Converter.
Local Open Scope Q_scope.

Lemma float64_bounds (s : bool) (m : positive) (e : Z) :
  is_float64 (S754_finite s m e) = true ->
  (-1074 <= e <= 971)%Z /\ (big.bitLen (Zpos m) <= 53)%Z.
Proof.
  unfold is_float64, valid_binary, bounded, canonical_mantissa, fexp, emin,
    prec64, emax64.
  rewrite bitLen_digits. intros H.
  apply andb_true_iff in H. destruct H as [H1 H2].
  apply Z.eqb_eq in H1. apply Z.leb_le in H2. lia.
Qed.

(** The package variable holds exactly [1e8], with 53 bits of precision. *)
Lemma conversionFactor_value :
  big.NewFloat conversionFactor_raw = Return conversionFactor /\
  big.prec conversionFactor = 53%Z /\
  big.neg conversionFactor = false /\
  magnitude conversionFactor == factor.
Proof. repeat split. Qed.

Lemma bitLen_mul_bound (a b : Z) (n k : Z) :
  (0 < a)%Z -> (0 < b)%Z -> (0 <= n)%Z -> (0 <= k)%Z ->
  (big.bitLen a <= n)%Z -> (big.bitLen b <= k)%Z ->
  (1 <= big.bitLen (a * b) <= n + k)%Z.
Proof.
  intros Ha Hb Hn Hk La Lb. split; [apply bitLen_pos|].
  assert (Hab : (0 < a * b)%Z) by nia.
  destruct (bitLen_bounds a Ha) as [_ Ua].
  destruct (bitLen_bounds b Hb) as [_ Ub].
  destruct (bitLen_bounds (a * b) Hab) as [Lab _].
  assert (Ua' : (a < 2 ^ n)%Z).
  { eapply Z.lt_le_trans; [exact Ua|]. apply Z.pow_le_mono_r; lia. }
  assert (Ub' : (b < 2 ^ k)%Z).
  { eapply Z.lt_le_trans; [exact Ub|]. apply Z.pow_le_mono_r; lia. }
  assert (Hlt : (2 ^ (big.bitLen (a * b) - 1) < 2 ^ (n + k))%Z).
  { rewrite Z.pow_add_r by lia. nia. }
  apply Z.pow_lt_mono_r_iff in Hlt; lia.
Qed.

(** The product [gwei] of [parseGasPriceToWei] for a finite non-zero [raw]:
    a finite [Float] of precision 53 whose magnitude is the exact product
    rounded to 53 bits. *)
Lemma gwei_correct (s : bool) (m : positive) (e : Z) :
  is_float64 (S754_finite s m e) = true ->
  exists g,
    (x <~ big.NewFloat (S754_finite s m e) ;;
     big.Mul big.new_Float x conversionFactor)%go = Return g /\
    big.fform g = big.finite /\
    (0 < big.mant g)%Z /\
    (big.bitLen (big.mant g) <= big.prec g)%Z /\
    big.neg g = s /\
    magnitude g == round_to_prec 53 (inject_Z (Zpos m) * 2 ^ e * factor).
Proof.
  intros Hv. destruct (float64_bounds s m e Hv) as [He Hm].
  set (M := Zpos m) in *.
  set (c := 6710886400000000%Z).
  assert (Hc : big.bitLen c = 53%Z) by reflexivity.
  assert (HM : (0 < M)%Z) by reflexivity.
  assert (HMc : (0 < M * c)%Z) by (unfold c; lia).
  assert (Bmc : (1 <= big.bitLen (M * c) <= 106)%Z).
  { apply (bitLen_mul_bound M c 53 53); lia. }
  set (e1 := (e - 26 + big.bitLen (M * c))%Z).
  set (zr := big.mkFloat 53 big.ToNearestEven s big.finite (M * c) e1).
  assert (Hrun : (x <~ big.NewFloat (S754_finite s m e) ;;
                  big.Mul big.new_Float x conversionFactor)%go
                 = Return (big.round zr)).
  { unfold big.NewFloat, big.SetFloat64, obind, big.Mul, conversionFactor.
    cbn [IsNaN big.prec big.new_Float big.mode big.neg big.fform big.mant big.exp].
    cbn [Z.eqb Z.ltb Z.compare Pos.compare Pos.compare_cont Z.max].
    cbn [big.prec big.new_Float big.mode big.neg big.fform big.mant big.exp].
    unfold big.umul, big.fnorm, big.setExpAndRound.
    cbn [big.prec big.new_Float big.mode big.neg big.fform big.mant big.exp].
    fold M c. rewrite Hc, xorb_false_r.
    replace (e + big.bitLen M + 27 - (big.bitLen M + 53 - big.bitLen (M * c)))%Z
      with e1 by (unfold e1; ring).
    destruct (Z.ltb_spec e1 big.MinExp) as [C|_];
      [unfold e1, big.MinExp in C; lia|].
    destruct (Z.gtb_spec e1 big.MaxExp) as [C|_];
      [unfold e1, big.MaxExp in C; lia|].
    reflexivity. }
  exists (big.round zr). split; [exact Hrun|].
  destruct (round_correct zr) as (R1 & R2 & R3 & R4 & R5 & R6);
    try reflexivity; try assumption.
  { cbn. lia. }
  { cbn. unfold e1, big.MaxExp. lia. }
  repeat split; try assumption.
  - rewrite R4. exact R3.
  - rewrite R6. apply round_to_prec_comp.
    unfold magnitude, zr, e1. cbn [big.prec big.mant big.exp].
    replace (e - 26 + big.bitLen (M * c) - big.bitLen (M * c))%Z with (e - 26)%Z by ring.
    rewrite pow2_sub, inject_Z_mult. unfold factor, c.
    change (2 ^ 26) with (inject_Z 67108864).
    change (inject_Z 6710886400000000) with (100000000 * inject_Z 67108864).
    generalize (pow2_nonzero e). generalize (2 ^ e). intros x Hx.
    field.
Qed.

End Converter.

Section ConverterSpec.
Local Open Scope Q_scope.

Lemma parseGasPriceToWei_of_gwei (raw : float64) (g : big.Float) :
  (x <~ big.NewFloat raw ;;
   big.Mul big.new_Float x conversionFactor)%go = Return g ->
  parseGasPriceToWei raw =
  if big.IsInt g then Return (fst (big.Int g), None)
  else Return (None, Some ErrNotInteger).
Proof.
  unfold parseGasPriceToWei, obind.
  destruct (big.NewFloat raw) as [x|msg]; [|discriminate].
  destruct (big.Mul big.new_Float x conversionFactor) as [g'|msg]; [|discriminate].
  intros [= ->]. destruct (big.IsInt g); cbn [negb]; [|reflexivity].
  destruct (big.Int g). reflexivity.
Qed.

(** The converter on a finite float64: the exact product with [1e8] is
    rounded to 53 significant bits; if the rounded product is an integer it
    is returned, otherwise the call fails. *)
Lemma parseGasPriceToWei_spec (raw : float64) (v : Q) :
  is_float64 raw = true ->
  float64_value raw = Some v ->
  parseGasPriceToWei raw =
  match Qint (round_to_prec 53 (v * factor)) with
  | Some z => Return (Some z, None)
  | None => Return (None, Some ErrNotInteger)
  end.
Proof.
  intros Hv Hval. destruct raw as [s|s| |s m e]; try discriminate.
  - injection Hval as <-. destruct s; reflexivity.
  - injection Hval as <-.
    destruct (gwei_correct s m e Hv) as (g & Hrun & Gf & Gm & Gb & Gs & Gmag).
    rewrite (parseGasPriceToWei_of_gwei _ g Hrun).
    pose proof (IsInt_Int_correct g Gf Gm Gb) as HI.
    assert (Hr : round_to_prec 53 (inject_Z (if s then Zneg m else Zpos m) * 2 ^ e * factor)
                 == if s then - magnitude g else magnitude g).
    { destruct s; rewrite Gmag; [|reflexivity].
      rewrite <- round_to_prec_opp. apply round_to_prec_comp.
      change (Zneg m) with (- Zpos m)%Z. rewrite inject_Z_opp. ring. }
    destruct (big.IsInt g).
    + destruct HI as (N & HN & HInt). rewrite HInt, Gs.
      assert (E : round_to_prec 53 (inject_Z (if s then Zneg m else Zpos m) * 2 ^ e * factor)
                  == inject_Z (if s then (- N)%Z else N)).
      { rewrite Hr. destruct s; rewrite HN; [rewrite inject_Z_opp|]; reflexivity. }
      rewrite (Qint_inject _ _ E). reflexivity.
    + rewrite Qint_not_integer; [reflexivity|].
      intros z C. rewrite Hr in C. destruct s.
      * apply (HI (- z)%Z). rewrite inject_Z_opp, <- C. ring.
      * apply (HI z). exact C.
Qed.

(** Infinities are rejected, NaN makes [big.NewFloat] panic. *)
Lemma parseGasPriceToWei_infinity (s : bool) :
  parseGasPriceToWei (S754_infinity s) = Return (None, Some ErrNotInteger).
Proof. destruct s; reflexivity. Qed.

Lemma parseGasPriceToWei_nan :
  parseGasPriceToWei S754_nan = Panic "NewFloat(NaN)".
Proof. reflexivity. Qed.

End ConverterSpec.

(* ================================================================== *)
(** ** Rounding integers *)

Section RoundIntegers.
Local Open Scope Q_scope.

Lemma bitLen_le_of_lt_pow2 (k p : Z) :
  (0 < k)%Z -> (0 <= p)%Z -> (k < 2 ^ p)%Z -> (big.bitLen k <= p)%Z.
Proof.
  intros Hk Hp H. destruct (bitLen_bounds k Hk) as [L _].
  pose proof (bitLen_pos k) as B.
  assert (Hlt : (2 ^ (big.bitLen k - 1) < 2 ^ p)%Z) by lia.
  apply Z.pow_lt_mono_r_iff in Hlt; lia.
Qed.

Lemma inject_dyadic (k j : Z) :
  (0 <= j)%Z -> inject_Z (k * 2 ^ j) == inject_Z k * 2 ^ j.
Proof. intros Hj. rewrite inject_Z_mult, <- pow2_inject by lia. reflexivity. Qed.

(** An integer that fits [p] bits is left alone. *)
Lemma round_to_prec_fits (p z : Z) :
  (0 <= p)%Z -> fits_prec p z -> round_to_prec p (inject_Z z) == inject_Z z.
Proof.
  intros Hp (k & j & Hj & Hk & ->).
  assert (Pos : forall k', (0 < k')%Z -> (k' < 2 ^ p)%Z ->
            round_to_prec p (inject_Z (k' * 2 ^ j)) == inject_Z (k' * 2 ^ j)).
  { intros k' H0 H1.
    rewrite (round_to_prec_comp p _ _ (inject_dyadic k' j Hj)).
    rewrite (round_to_prec_dyadic p k' j H0).
    pose proof (bitLen_le_of_lt_pow2 k' p H0 Hp H1) as B.
    apply Z.leb_le in B. rewrite B. symmetry. apply inject_dyadic. exact Hj. }
  destruct (Z.lt_trichotomy k 0) as [Hn|[->|Hpos]].
  - replace (k * 2 ^ j)%Z with (- (- k * 2 ^ j))%Z by ring.
    rewrite inject_Z_opp, round_to_prec_opp, Pos by lia. reflexivity.
  - apply round_to_prec_0. reflexivity.
  - apply Pos; lia.
Qed.


(** Rounding an integer gives an integer. *)
Lemma round_to_prec_integer (p z : Z) :
  exists z', round_to_prec p (inject_Z z) == inject_Z z'.
Proof.
  assert (Pos : forall k, (0 < k)%Z ->
            exists z', round_to_prec p (inject_Z k) == inject_Z z').
  { intros k Hk.
    assert (E : inject_Z k == inject_Z k * 2 ^ 0) by (cbn; ring).
    destruct (Z.leb_spec (big.bitLen k) p) as [B|B].
    - exists k. rewrite (round_to_prec_comp p _ _ E), (round_to_prec_dyadic p k 0 Hk).
      apply Z.leb_le in B. rewrite B. symmetry. exact E.
    - eexists. rewrite (round_to_prec_comp p _ _ E), (round_to_prec_dyadic p k 0 Hk).
      apply Z.leb_gt in B. rewrite B.
      rewrite <- inject_dyadic by lia. reflexivity. }
  destruct (Z.lt_trichotomy z 0) as [Hn|[->|Hpos]].
  - destruct (Pos (- z)%Z) as [z' Hz']; [lia|]. exists (- z')%Z.
    replace z with (- - z)%Z by ring.
    rewrite inject_Z_opp, round_to_prec_opp, Hz', inject_Z_opp. reflexivity.
  - exists 0%Z. apply round_to_prec_0. reflexivity.
  - apply Pos. exact Hpos.
Qed.

Lemma Qrne_nonneg (q : Q) : 0 <= q -> (0 <= Qrne q)%Z.
Proof.
  intros H. assert (F : (0 <= Qfloor q)%Z).
  { change 0%Z with (Qfloor 0). apply Qfloor_resp_le. exact H. }
  unfold Qrne. destruct (Qcompare _ _); [destruct (Z.even _)| |]; lia.
Qed.

(** Rounding keeps the sign. *)
Lemma round_to_prec_nonneg (p : Z) (q : Q) : 0 <= q -> 0 <= round_to_prec p q.
Proof.
  intros H. unfold round_to_prec. destruct (Qeq_bool q 0); [apply Qle_refl|].
  apply Qmult_le_0_compat; [|apply Qlt_le_weak, pow2_pos].
  change 0 with (inject_Z 0). rewrite <- Zle_Qle. apply Qrne_nonneg.
  apply Qle_shift_div_l; [apply pow2_pos|]. rewrite Qmult_0_l. exact H.
Qed.

Lemma round_to_prec_nonpos (p : Z) (q : Q) : q <= 0 -> round_to_prec p q <= 0.
Proof.
  intros H.
  assert (E : round_to_prec p q == - round_to_prec p (- q)).
  { rewrite round_to_prec_opp. ring. }
  rewrite E.
  assert (Hq : 0 <= - q).
  { apply (Qopp_le_compat q 0) in H. exact H. }
  apply round_to_prec_nonneg with (p := p) in Hq.
  apply (Qopp_le_compat 0 _) in Hq. exact Hq.
Qed.

End RoundIntegers.

(* ================================================================== *)
(** ** The unit converter: results *)

Section ConverterResults.
Local Open Scope Q_scope.

(** An exact integer product is never rejected: the converter returns its
    rounding to 53 bits, which is an integer. *)
Lemma converts_exact_product (raw : float64) (v : Q) (z : Z) :
  is_float64 raw = true ->
  float64_value raw = Some v ->
  v * factor == inject_Z z ->
  exists z',
    parseGasPriceToWei raw = Return (Some z', None) /\
    inject_Z z' == round_to_prec 53 (inject_Z z).
Proof.
  intros Hf Hv E. rewrite (parseGasPriceToWei_spec raw v Hf Hv).
  destruct (round_to_prec_integer 53 z) as [z' Hz'].
  exists z'. split; [|symmetry; exact Hz'].
  rewrite (Qint_inject _ z'); [reflexivity|].
  rewrite (round_to_prec_comp 53 _ _ E). exact Hz'.
Qed.

Lemma rounded_fits (z z' : Z) :
  inject_Z z' == round_to_prec 53 (inject_Z z) -> fits_prec 53 z -> z' = z.
Proof.
  intros E F. rewrite (round_to_prec_fits 53 z) in E by (lia || exact F).
  apply inject_Z_injective. exact E.
Qed.

End ConverterResults.

(** Some conversions, evaluated: what [encoding/json] decodes from the
    literals [45.3], [0.1] and [0.123456789], and the specification's own
    rounding of their exact products. *)
Example conversions_evaluated :
  parseGasPriceToWei (float64_of_decimal 453 10)
    = Return (Some 4530000000, None) /\
  parseGasPriceToWei (float64_of_decimal 1 10)
    = Return (Some 10000000, None) /\
  parseGasPriceToWei (float64_of_decimal 123456789 1000000000)
    = Return (None, Some ErrNotInteger) /\
  parseGasPriceToWei (float64_of_Z (-1))
    = Return (Some (-100000000), None) /\
  parseGasPriceToWei (S754_zero true) = Return (Some 0, None).
Proof. repeat split; vm_compute; reflexivity. Qed.










(* ================================================================== *)
(** ** The transitions of the package, one equation per path *)

Lemma loadGasPrices_eq (w : World) :
  loadGasPrices w = (Return (fetch_outcome (next_fetch w)), sent w).
Proof.
  destruct w as [kb k o n c r].
  unfold loadGasPrices, next_fetch, next_url, bind, get, http_Get, sent.
  destruct kb; cbn;
    match goal with |- context [o ?u n] => destruct (o u n) as [e|d [e|]] end;
    reflexivity.
Qed.

Section Transitions.

Variable w : World.

Lemma next_fetch_tick : next_fetch (tick w) = next_fetch w.
Proof. reflexivity. Qed.

Lemma NewGasPriceSuggester_eq (a : time.Duration) :
  NewGasPriceSuggester a w =
  match fetch_outcome (next_fetch w) with
  | (_, Some e) => (Return (None, Some e), sent w)
  | (prices, None) =>
      (Return (Some (mkManager (clock w (reads w)) a prices), None),
       tick (sent w))
  end.
Proof.
  unfold NewGasPriceSuggester, bind. rewrite loadGasPrices_eq.
  destruct (fetch_outcome (next_fetch w)) as [prices [e|]]; reflexivity.
Qed.

Lemma SuggestGasPrice_eq (p : GasPriority) :
  SuggestGasPrice p w =
  match fetch_outcome (next_fetch w) with
  | (_, Some e) => (Return (None, Some e), sent w)
  | (prices, None) => (parseSuggestedGasPrice p prices, sent w)
  end.
Proof.
  unfold SuggestGasPrice, bind. rewrite loadGasPrices_eq.
  destruct (fetch_outcome (next_fetch w)) as [prices [e|]]; reflexivity.
Qed.

Variable m : gasPriceManager.
Variable p : GasPriority.

(** Fresh cache: no request, the stored quotes are converted. *)
Lemma suggestCached_fresh :
  stale m w = false ->
  suggestCachedGasPrice p (m, w) =
  (parseSuggestedGasPrice p (latestResponse m), (m, tick w)).
Proof.
  unfold stale, age_at. intros Hs.
  unfold suggestCachedGasPrice, bind, this, inWorld, time_Since, time_Now, ret.
  cbn. rewrite Hs. cbn.
  unfold lift_outcome.
  destruct (parseSuggestedGasPrice p (latestResponse m)); reflexivity.
Qed.

(** Stale cache, failed request: early return, manager untouched. *)
Lemma suggestCached_stale_failed (d : ethGasStationResponse) (e : error) :
  stale m w = true ->
  fetch_outcome (next_fetch w) = (d, Some e) ->
  suggestCachedGasPrice p (m, w) =
  (Return (None, Some e), (m, sent (tick w))).
Proof.
  unfold stale, age_at. intros Hs Hf.
  unfold suggestCachedGasPrice, bind, this, inWorld, time_Since, time_Now, ret.
  cbn. rewrite Hs. cbn.
  fold (tick w). rewrite loadGasPrices_eq, next_fetch_tick, Hf.
  reflexivity.
Qed.

(** Stale cache, successful request: both fields replaced, then the tier
    is looked up in the new quotes. *)
Lemma suggestCached_stale_fetched (d : ethGasStationResponse) :
  stale m w = true ->
  fetch_outcome (next_fetch w) = (d, None) ->
  suggestCachedGasPrice p (m, w) =
  (parseSuggestedGasPrice p d,
   (mkManager (clock w (S (reads w))) (maxResultAge m) d,
    tick (sent (tick w)))).
Proof.
  unfold stale, age_at. intros Hs Hf.
  unfold suggestCachedGasPrice, bind, this, inWorld, time_Since, time_Now, ret.
  cbn. rewrite Hs. cbn.
  fold (tick w). rewrite loadGasPrices_eq, next_fetch_tick, Hf.
  cbn. unfold lift_outcome.
  destruct (parseSuggestedGasPrice p d); reflexivity.
Qed.

End Transitions.

Lemma parseSuggestedGasPrice_unknown (p : GasPriority) (prices : ethGasStationResponse) :
  known_priority p = false ->
  parseSuggestedGasPrice p prices = Return (None, Some ErrUnknownPriority).
Proof.
  unfold known_priority, parseSuggestedGasPrice. intros H.
  repeat (apply orb_false_iff in H; destruct H as [H ?]).
  repeat match goal with E : String.eqb _ _ = false |- _ => rewrite E; clear E end.
  reflexivity.
Qed.

(* ================================================================== *)
(** ** The cached suggester *)

(** C3: when the stored result is stale and the refresh fails, the call
    returns a nil amount and the fetch error, and the manager (so both
    [latestResponse] and [fetchedAt]) is exactly as before the call. *)
Theorem failed_refresh_keeps_cache
    (p : GasPriority) (m : gasPriceManager) (w : World)
    (d : ethGasStationResponse) (e : error) :
  stale m w = true ->
  fetch_outcome (next_fetch w) = (d, Some e) ->
  call_result p (m, w) = Return (None, Some e) /\
  latestResponse (fst (call_state p (m, w))) = latestResponse m /\
  fetchedAt (fst (call_state p (m, w))) = fetchedAt m /\
  fst (call_state p (m, w)) = m.
Proof.
  intros Hs Hf. unfold call_result, call_state, GasPriceSuggester_call.
  rewrite (suggestCached_stale_failed w m p d e Hs Hf). cbn. auto.
Qed.

Lemma failed_refresh_keeps_cache_witness :
  let m := mkManager 0 0 Scenario.quotes in
  let w := Scenario.world 1 1 in
  call_result "fast" (m, w) = Return (None, Some Scenario.timeout) /\
  latestResponse (fst (call_state "fast" (m, w))) = latestResponse m /\
  fetchedAt (fst (call_state "fast" (m, w))) = fetchedAt m /\
  fst (call_state "fast" (m, w)) = m.
Proof.
  intros m w.
  apply (failed_refresh_keeps_cache "fast" m w zeroResponse Scenario.timeout);
    reflexivity.
Defined.

(** The tier lookup converts the quote the priority selects. *)
Lemma parseSuggestedGasPrice_quote_of
    (p : GasPriority) (prices : ethGasStationResponse) (raw : float64) :
  quote_of p prices = Some raw ->
  parseSuggestedGasPrice p prices = parseGasPriceToWei raw.
Proof.
  unfold quote_of, parseSuggestedGasPrice,
    GasPriorityFast, GasPriorityFastest, GasPrioritySafeLow, GasPriorityAverage.
  destruct (String.eqb p "fast"); [intros [= <-]; reflexivity|].
  destruct (String.eqb p "fastest"); [intros [= <-]; reflexivity|].
  destruct (String.eqb p "safeLow"); [intros [= <-]; reflexivity|].
  destruct (String.eqb p "average"); [intros [= <-]; reflexivity|].
  discriminate.
Qed.

Lemma quote_of_known
    (p : GasPriority) (prices : ethGasStationResponse) (raw : float64) :
  quote_of p prices = Some raw -> known_priority p = true.
Proof.
  unfold quote_of, known_priority,
    GasPriorityFast, GasPriorityFastest, GasPrioritySafeLow, GasPriorityAverage.
  destruct (String.eqb p "fast"); [reflexivity|].
  destruct (String.eqb p "fastest"); [reflexivity|].
  destruct (String.eqb p "safeLow"); [reflexivity|].
  destruct (String.eqb p "average"); [reflexivity|].
  discriminate.
Qed.

(** The converter on any float64 other than NaN, over the rationals. *)
Lemma parseGasPriceToWei_rounded_conversion (raw : float64) :
  is_float64 raw = true ->
  IsNaN raw = false ->
  parseGasPriceToWei raw = rounded_conversion raw.
Proof.
  intros Hf Hn. unfold rounded_conversion.
  destruct (float64_value raw) as [v|] eqn:Hv.
  - apply parseGasPriceToWei_spec; assumption.
  - destruct raw as [s|s| |s m e]; try discriminate.
    apply parseGasPriceToWei_infinity.
Qed.

(** C4, as stated, fails: the two calls need not return an integer amount.
    The oracle answers with the quote [1.1] for "fast"; the suggester is
    built with one hour, both calls use the valid tier "fast" within the
    threshold, and both return a nil amount with [ErrNotInteger], because
    [1.1 * 1e8] rounded to 53 bits is not an integer. *)
Lemma two_fresh_calls_without_amount :
  let w0 := fractional_world in
  let m := mkManager 0 time.Hour fractional_quotes in
  let w1 := tick (sent w0) in
  NewGasPriceSuggester time.Hour w0 = (Return (Some m, None), w1) /\
  known_priority "fast" = true /\
  stale m w1 = false /\
  stale (fst (call_state "fast" (m, w1))) (snd (call_state "fast" (m, w1)))
    = false /\
  call_result "fast" (m, w1) = Return (None, Some ErrNotInteger) /\
  call_result "fast" (call_state "fast" (m, w1))
    = Return (None, Some ErrNotInteger) /\
  fetches (snd (call_state "fast" (call_state "fast" (m, w1)))) = 1%nat.
Proof.
  cbv zeta. repeat split; vm_compute; reflexivity.
Qed.

(** C4 (amended): a suggester built with [maxResultAge] of one hour, then
    called twice with the same valid tier while the stored result is within
    the threshold: neither call sends a request, so the only request ever
    sent is the constructor's, and both calls return the same result, which
    is the conversion of the stored quote [raw] of that tier: the integer
    [raw * 1e8] rounded to 53 significant bits when that is an integer (the
    exact product when it is an integer that fits 53 bits), and a nil amount
    with [ErrNotInteger] otherwise. *)
Theorem two_calls_within_window_results
    (p : GasPriority) (w0 w1 : World) (m : gasPriceManager) (raw : float64) :
  quote_of p (latestResponse m) = Some raw ->
  is_float64 raw = true ->
  IsNaN raw = false ->
  NewGasPriceSuggester time.Hour w0 = (Return (Some m, None), w1) ->
  stale m w1 = false ->
  stale (fst (call_state p (m, w1))) (snd (call_state p (m, w1))) = false ->
  let s2 := call_state p (m, w1) in
  let s3 := call_state p s2 in
  known_priority p = true /\
  call_result p (m, w1) = rounded_conversion raw /\
  call_result p s2 = rounded_conversion raw /\
  fetches (snd s2) = S (fetches w0) /\
  fetches (snd s3) = S (fetches w0) /\
  (fetches w0 = 0%nat -> fetches (snd s3) = 1%nat) /\
  (forall z, exact_wei raw z -> fits_prec 53 z ->
     rounded_conversion raw = Return (Some z, None)).
Proof.
  intros Hq Hf Hn Hnew H1.
  unfold call_result, call_state, GasPriceSuggester_call.
  rewrite (suggestCached_fresh w1 m p H1). cbn [fst snd].
  intros H2. rewrite (suggestCached_fresh (tick w1) m p H2). cbn [fst snd].
  rewrite (parseSuggestedGasPrice_quote_of p _ raw Hq).
  pose proof (parseGasPriceToWei_rounded_conversion raw Hf Hn) as Hconv.
  rewrite NewGasPriceSuggester_eq in Hnew.
  assert (Hw : fetches w1 = S (fetches w0)).
  { destruct (fetch_outcome (next_fetch w0)) as [prices [e|]];
      inversion Hnew; reflexivity. }
  split; [exact (quote_of_known p _ raw Hq)|].
  split; [exact Hconv|]. split; [exact Hconv|].
  cbn [fetches tick]. rewrite Hw.
  split; [reflexivity|]. split; [reflexivity|].
  split; [intros ->; reflexivity|].
  intros z (v & Hv & E) Hfit. rewrite <- Hconv.
  destruct (converts_exact_product raw v z Hf Hv E) as (z' & Hrun & Hz').
  rewrite Hrun, (rounded_fits z z' Hz' Hfit). reflexivity.
Qed.

Lemma two_calls_within_window_results_witness :
  let w0 := Scenario.world 0 0 in
  let m := mkManager 0 time.Hour Scenario.quotes in
  let w1 := Scenario.world 1 1 in
  let raw := float64_of_Z 400 in
  let s2 := call_state "fast" (m, w1) in
  let s3 := call_state "fast" s2 in
  rounded_conversion raw = Return (Some 40000000000, None) /\
  (known_priority "fast" = true /\
   call_result "fast" (m, w1) = rounded_conversion raw /\
   call_result "fast" s2 = rounded_conversion raw /\
   fetches (snd s2) = S (fetches w0) /\
   fetches (snd s3) = S (fetches w0) /\
   (fetches w0 = 0%nat -> fetches (snd s3) = 1%nat) /\
   (forall z, exact_wei raw z -> fits_prec 53 z ->
      rounded_conversion raw = Return (Some z, None))).
Proof.
  intros w0 m w1 raw. split; [vm_compute; reflexivity|].
  apply (two_calls_within_window_results "fast" w0 w1 m raw); reflexivity.
Defined.




(** C6, as stated, fails: with an unrecognised priority, a stale cache and a
    failing refresh, the call returns the fetch error, not the
    unknown-priority error. *)
Lemma unknown_priority_stale_returns_fetch_error :
  let m := mkManager 0 0 Scenario.quotes in
  let w := Scenario.world 1 1 in
  known_priority "unknown-tier" = false /\
  call_result "unknown-tier" (m, w) = Return (None, Some Scenario.timeout) /\
  call_result "unknown-tier" (m, w) <> Return (None, Some ErrUnknownPriority).
Proof.
  cbv zeta. repeat split. discriminate.
Qed.

(** C6 (amended): for a priority outside the closed set, the call returns a
    nil amount and the unknown-priority error whenever the cache is fresh or
    the refresh succeeds; when the cache is stale and the refresh fails, the
    fetch error is returned instead.  When the cache is fresh the call sends
    no request and leaves the manager as it was. *)
Theorem unknown_priority_result
    (p : GasPriority) (m : gasPriceManager) (w : World) :
  known_priority p = false ->
  call_result p (m, w) =
    (if stale m w then
       match snd (fetch_outcome (next_fetch w)) with
       | Some e => Return (None, Some e)
       | None => Return (None, Some ErrUnknownPriority)
       end
     else Return (None, Some ErrUnknownPriority)) /\
  fetches (snd (call_state p (m, w))) =
    (if stale m w then S (fetches w) else fetches w) /\
  (if stale m w then True else fst (call_state p (m, w)) = m).
Proof.
  intros Hp. unfold call_result, call_state, GasPriceSuggester_call.
  destruct (stale m w) eqn:Hs.
  - destruct (fetch_outcome (next_fetch w)) as [d [e|]] eqn:Hf.
    + rewrite (suggestCached_stale_failed w m p d e Hs Hf). repeat split.
    + rewrite (suggestCached_stale_fetched w m p d Hs Hf).
      rewrite parseSuggestedGasPrice_unknown by assumption. repeat split.
  - rewrite (suggestCached_fresh w m p Hs).
    rewrite parseSuggestedGasPrice_unknown by assumption. repeat split.
Qed.

Lemma unknown_priority_result_witness :
  let p := "unknown-tier" in
  let m := mkManager 0 time.Hour Scenario.quotes in
  let w := Scenario.world 1 1 in
  call_result p (m, w) =
    (if stale m w then
       match snd (fetch_outcome (next_fetch w)) with
       | Some e => Return (None, Some e)
       | None => Return (None, Some ErrUnknownPriority)
       end
     else Return (None, Some ErrUnknownPriority)) /\
  fetches (snd (call_state p (m, w))) =
    (if stale m w then S (fetches w) else fetches w) /\
  (if stale m w then True else fst (call_state p (m, w)) = m).
Proof.
  intros p m w. apply (unknown_priority_result p m w). reflexivity.
Defined.

(** C7: [NewGasPriceSuggester] sends exactly one request.  If it fails, the
    nil suggester and the fetch error are returned; if it succeeds, the
    suggester's manager holds the fetched quotes, the clock reading taken at
    construction and the given [maxResultAge]. *)
Theorem NewGasPriceSuggester_eager_fetch (a : time.Duration) (w : World) :
  fetches (snd (NewGasPriceSuggester a w)) = S (fetches w) /\
  match fetch_outcome (next_fetch w) with
  | (_, Some e) =>
      fst (NewGasPriceSuggester a w) = Return (None, Some e)
  | (prices, None) =>
      fst (NewGasPriceSuggester a w) =
      Return (Some (mkManager (clock w (reads w)) a prices), None)
  end.
Proof.
  rewrite NewGasPriceSuggester_eq.
  destruct (fetch_outcome (next_fetch w)) as [prices [e|]]; split; reflexivity.
Qed.

(** C8: with the quote set [{fast: 400, fastest: 500, safeLow: 50,
    average: 200}], the "fast" tier converts to 40000000000 and the "safeLow"
    tier to 5000000000, each with a nil error. *)
Theorem scenario_amounts :
  parseSuggestedGasPrice "fast" Scenario.quotes
    = Return (Some 40000000000, None) /\
  parseSuggestedGasPrice "safeLow" Scenario.quotes
    = Return (Some 5000000000, None).
Proof.
  split; vm_compute; reflexivity.
Qed.

(** The same amounts through the two entry points: the uncached
    [SuggestGasPrice] when the oracle answers with that quote set, and the
    cached suggester when that quote set is the fresh cache. *)
Lemma scenario_amounts_uncached (w : World) :
  fetch_outcome (next_fetch w) = (Scenario.quotes, None) ->
  fst (SuggestGasPrice "fast" w) = Return (Some 40000000000, None) /\
  fst (SuggestGasPrice "safeLow" w) = Return (Some 5000000000, None).
Proof.
  intros Hw. rewrite !SuggestGasPrice_eq, Hw. split; vm_compute; reflexivity.
Qed.

Lemma scenario_amounts_cached (m : gasPriceManager) (w : World) :
  latestResponse m = Scenario.quotes ->
  stale m w = false ->
  call_result "fast" (m, w) = Return (Some 40000000000, None) /\
  call_result "safeLow" (m, w) = Return (Some 5000000000, None).
Proof.
  intros Hm Hfresh. unfold call_result, GasPriceSuggester_call.
  rewrite !(suggestCached_fresh w m _ Hfresh), Hm.
  split; vm_compute; reflexivity.
Qed.

(** C9: with an unrecognised priority and a stale cache, the request is sent
    before the tier is examined: when it succeeds, the quotes and the
    timestamp are replaced although the call returns the unknown-priority
    error. *)
Theorem unknown_priority_still_refreshes
    (p : GasPriority) (m : gasPriceManager) (w : World)
    (d : ethGasStationResponse) :
  known_priority p = false ->
  stale m w = true ->
  fetch_outcome (next_fetch w) = (d, None) ->
  call_result p (m, w) = Return (None, Some ErrUnknownPriority) /\
  fetches (snd (call_state p (m, w))) = S (fetches w) /\
  latestResponse (fst (call_state p (m, w))) = d /\
  fetchedAt (fst (call_state p (m, w))) = clock w (S (reads w)).
Proof.
  intros Hp Hs Hf. unfold call_result, call_state, GasPriceSuggester_call.
  rewrite (suggestCached_stale_fetched w m p d Hs Hf).
  rewrite parseSuggestedGasPrice_unknown by assumption.
  repeat split.
Qed.

Lemma unknown_priority_still_refreshes_witness :
  let p := "unknown-tier" in
  let m := mkManager 0 0 Scenario.quotes in
  let w := Scenario.world 2 3 in
  (call_result p (m, w) = Return (None, Some ErrUnknownPriority) /\
   fetches (snd (call_state p (m, w))) = S (fetches w) /\
   latestResponse (fst (call_state p (m, w))) = Scenario.quotes' /\
   fetchedAt (fst (call_state p (m, w))) = clock w (S (reads w))) /\
  latestResponse (fst (call_state p (m, w))) <> latestResponse m /\
  fetchedAt (fst (call_state p (m, w))) <> fetchedAt m.
Proof.
  intros p m w. split.
  - apply (unknown_priority_still_refreshes p m w Scenario.quotes');
      reflexivity.
  - split; vm_compute; discriminate.
Defined.

(* ================================================================== *)
(** ** Further properties of the suggesters *)

Section SuggesterProperties.

Variable w : World.

(** X1: the uncached [SuggestGasPrice] sends exactly one request on every
    call, whatever the priority, and never reads the clock; a fetch error
    is returned before the priority is looked at, otherwise the result is
    the tier lookup in the fetched quotes. *)
Theorem SuggestGasPrice_one_request (p : GasPriority) :
  fetches (snd (SuggestGasPrice p w)) = S (fetches w) /\
  reads (snd (SuggestGasPrice p w)) = reads w /\
  fst (SuggestGasPrice p w) =
    match snd (fetch_outcome (next_fetch w)) with
    | Some e => Return (None, Some e)
    | None => parseSuggestedGasPrice p (fst (fetch_outcome (next_fetch w)))
    end.
Proof.
  rewrite SuggestGasPrice_eq.
  destruct (fetch_outcome (next_fetch w)) as [d [e|]]; repeat split.
Qed.

Variable m : gasPriceManager.

(** The world and the manager after one cached call, on every path. *)
Lemma call_state_eq (p : GasPriority) :
  call_state p (m, w) =
    if stale m w then
      match fetch_outcome (next_fetch w) with
      | (_, Some _) => (m, sent (tick w))
      | (d, None) =>
          (mkManager (clock w (S (reads w))) (maxResultAge m) d,
           tick (sent (tick w)))
      end
    else (m, tick w).
Proof.
  unfold call_state, GasPriceSuggester_call.
  destruct (stale m w) eqn:Hs.
  - destruct (fetch_outcome (next_fetch w)) as [d [e|]] eqn:Hf.
    + now rewrite (suggestCached_stale_failed w m p d e Hs Hf).
    + now rewrite (suggestCached_stale_fetched w m p d Hs Hf).
  - now rewrite (suggestCached_fresh w m p Hs).
Qed.

Lemma call_result_eq (p : GasPriority) :
  call_result p (m, w) =
    if stale m w then
      match fetch_outcome (next_fetch w) with
      | (_, Some e) => Return (None, Some e)
      | (d, None) => parseSuggestedGasPrice p d
      end
    else parseSuggestedGasPrice p (latestResponse m).
Proof.
  unfold call_result, GasPriceSuggester_call.
  destruct (stale m w) eqn:Hs.
  - destruct (fetch_outcome (next_fetch w)) as [d [e|]] eqn:Hf.
    + now rewrite (suggestCached_stale_failed w m p d e Hs Hf).
    + now rewrite (suggestCached_stale_fetched w m p d Hs Hf).
  - now rewrite (suggestCached_fresh w m p Hs).
Qed.

(** X2: a cached call on a stale cache returns what the uncached
    [SuggestGasPrice] returns in the same world, and sends the same single
    request. *)
Theorem stale_call_is_uncached_call (p : GasPriority) :
  stale m w = true ->
  call_result p (m, w) = fst (SuggestGasPrice p w) /\
  fetches (snd (call_state p (m, w))) = fetches (snd (SuggestGasPrice p w)).
Proof.
  intros Hs. rewrite call_result_eq, call_state_eq, SuggestGasPrice_eq, Hs.
  destruct (fetch_outcome (next_fetch w)) as [d [e|]]; split; reflexivity.
Qed.

(** X3: a cached call sends one request when the cache is stale and none
    when it is fresh, whatever the priority and whatever the outcome; it
    reads the clock once, and once more after a successful refresh. *)
Theorem cached_call_requests_and_readings (p : GasPriority) :
  fetches (snd (call_state p (m, w))) =
    (if stale m w then S (fetches w) else fetches w) /\
  reads (snd (call_state p (m, w))) =
    (if stale m w then
       match snd (fetch_outcome (next_fetch w)) with
       | Some _ => S (reads w)
       | None => S (S (reads w))
       end
     else S (reads w)).
Proof.
  rewrite call_state_eq. destruct (stale m w).
  - destruct (fetch_outcome (next_fetch w)) as [d [e|]]; split; reflexivity.
  - split; reflexivity.
Qed.

(** X4: a cached call either leaves the manager exactly as it was, or (stale
    cache and successful fetch) replaces the quotes and the timestamp
    together, the quotes by the fetched ones and the timestamp by the
    call's second clock reading (the one that follows the reading of the
    staleness test); [maxResultAge] never changes. *)
Theorem cache_fields_change_together (p : GasPriority) :
  fst (call_state p (m, w)) =
    (if stale m w then
       match fetch_outcome (next_fetch w) with
       | (_, Some _) => m
       | (d, None) => mkManager (clock w (S (reads w))) (maxResultAge m) d
       end
     else m) /\
  maxResultAge (fst (call_state p (m, w))) = maxResultAge m.
Proof.
  rewrite call_state_eq. destruct (stale m w).
  - destruct (fetch_outcome (next_fetch w)) as [d [e|]]; split; reflexivity.
  - split; reflexivity.
Qed.

End SuggesterProperties.

Lemma stale_call_is_uncached_call_witness :
  let m := mkManager 0 0 Scenario.quotes in
  let w := Scenario.world 2 3 in
  call_result "fastest" (m, w) = fst (SuggestGasPrice "fastest" w) /\
  fetches (snd (call_state "fastest" (m, w)))
    = fetches (snd (SuggestGasPrice "fastest" w)).
Proof.
  intros m w. apply (stale_call_is_uncached_call w m "fastest"). reflexivity.
Defined.

Section Ageing.

Lemma subMono_mono (t t' u : time.Time) :
  t <= t' -> time.subMono t u <= time.subMono t' u.
Proof.
  intros H. unfold time.subMono, time.maxDuration, time.minDuration.
  destruct (Z.gtb_spec (t - u) (2 ^ 63 - 1));
    destruct (Z.gtb_spec (t' - u) (2 ^ 63 - 1));
    destruct (Z.ltb_spec (t - u) (- 2 ^ 63));
    destruct (Z.ltb_spec (t' - u) (- 2 ^ 63)); lia.
Qed.

Lemma subMono_nonneg (t u : time.Time) : u <= t -> 0 <= time.subMono t u.
Proof.
  intros H. unfold time.subMono, time.maxDuration, time.minDuration.
  destruct (Z.gtb_spec (t - u) (2 ^ 63 - 1));
    destruct (Z.ltb_spec (t - u) (- 2 ^ 63)); lia.
Qed.

Lemma subMono_le_max (t u : time.Time) : time.subMono t u <= time.maxDuration.
Proof.
  unfold time.subMono, time.maxDuration, time.minDuration.
  destruct (Z.gtb_spec (t - u) (2 ^ 63 - 1));
    destruct (Z.ltb_spec (t - u) (- 2 ^ 63)); lia.
Qed.

(** X5: there is no negative caching.  After a refresh that failed, the
    next call is stale again as soon as the clock has not gone backwards,
    so it sends a new request. *)
Theorem failed_refresh_is_retried
    (p p' : GasPriority) (m : gasPriceManager) (w : World)
    (d : ethGasStationResponse) (e : error) :
  stale m w = true ->
  fetch_outcome (next_fetch w) = (d, Some e) ->
  clock w (reads w) <= clock w (S (reads w)) ->
  stale (fst (call_state p (m, w))) (snd (call_state p (m, w))) = true /\
  fetches (snd (call_state p' (call_state p (m, w)))) = S (S (fetches w)).
Proof.
  intros Hs Hf Hc.
  assert (E : call_state p (m, w) = (m, sent (tick w))).
  { rewrite call_state_eq, Hs, Hf. reflexivity. }
  rewrite E. cbn [fst snd].
  assert (Hs' : stale m (sent (tick w)) = true).
  { unfold stale, age_at in *. cbn [clock reads sent tick].
    apply Z.gtb_lt. apply Z.gtb_lt in Hs.
    pose proof (subMono_mono _ _ (fetchedAt m) Hc). lia. }
  split; [exact Hs'|].
  rewrite call_state_eq, Hs'.
  destruct (fetch_outcome (next_fetch (sent (tick w)))) as [d' [e'|]];
    reflexivity.
Qed.

Lemma failed_refresh_is_retried_witness :
  let m := mkManager 0 0 Scenario.quotes in
  let w := Scenario.world 1 1 in
  stale (fst (call_state "fast" (m, w))) (snd (call_state "fast" (m, w)))
    = true /\
  fetches (snd (call_state "average" (call_state "fast" (m, w))))
    = S (S (fetches w)).
Proof.
  intros m w.
  apply (failed_refresh_is_retried "fast" "average" m w zeroResponse
           Scenario.timeout); try reflexivity.
  vm_compute. discriminate.
Defined.

(** X6: after a successful refresh, a following call that is still within
    [maxResultAge] of the new timestamp is served from the refreshed quotes,
    for any priority, without another request. *)
Theorem refreshed_quotes_are_served
    (p p' : GasPriority) (m : gasPriceManager) (w : World)
    (d : ethGasStationResponse) :
  stale m w = true ->
  fetch_outcome (next_fetch w) = (d, None) ->
  stale (fst (call_state p (m, w))) (snd (call_state p (m, w))) = false ->
  call_result p' (call_state p (m, w)) = parseSuggestedGasPrice p' d /\
  fetches (snd (call_state p' (call_state p (m, w)))) = S (fetches w).
Proof.
  intros Hs Hf.
  assert (E : call_state p (m, w) =
              (mkManager (clock w (S (reads w))) (maxResultAge m) d,
               tick (sent (tick w)))).
  { rewrite call_state_eq, Hs, Hf. reflexivity. }
  rewrite E. cbn [fst snd]. intros Hs'.
  rewrite call_result_eq, call_state_eq, Hs'. split; reflexivity.
Qed.

Lemma refreshed_quotes_are_served_witness :
  let m := mkManager 0 1000000 Scenario.quotes in
  let w := Scenario.world 2 3 in
  call_result "safeLow" (call_state "fast" (m, w))
    = parseSuggestedGasPrice "safeLow" Scenario.quotes' /\
  fetches (snd (call_state "safeLow" (call_state "fast" (m, w))))
    = S (fetches w).
Proof.
  intros m w.
  apply (refreshed_quotes_are_served "fast" "safeLow" m w Scenario.quotes');
    reflexivity.
Defined.

(** X7: a negative [maxResultAge] makes every call refresh: as long as the
    clock reading is not before [fetchedAt], the age is at least 0, so the
    cache is stale and one request is sent. *)
Theorem negative_max_age_always_fetches
    (p : GasPriority) (m : gasPriceManager) (w : World) :
  maxResultAge m < 0 ->
  fetchedAt m <= clock w (reads w) ->
  stale m w = true /\
  fetches (snd (call_state p (m, w))) = S (fetches w).
Proof.
  intros Hneg Hc.
  assert (Hs : stale m w = true).
  { unfold stale, age_at. apply Z.gtb_lt.
    pose proof (subMono_nonneg _ _ Hc). lia. }
  split; [exact Hs|].
  rewrite call_state_eq, Hs.
  destruct (fetch_outcome (next_fetch w)) as [d [e|]]; reflexivity.
Qed.

Lemma negative_max_age_always_fetches_witness :
  let m := mkManager 0 (-1) Scenario.quotes in
  let w := Scenario.coarse_world in
  stale m w = true /\
  fetches (snd (call_state "fast" (m, w))) = S (fetches w).
Proof.
  intros m w. apply (negative_max_age_always_fetches "fast" m w).
  - reflexivity.
  - vm_compute. discriminate.
Defined.

(** X8: with the largest [Duration] as [maxResultAge] the cache never
    expires: the age saturates at that value, so no call ever refreshes,
    whatever the clock says. *)
Theorem max_duration_never_expires
    (p : GasPriority) (m : gasPriceManager) (w : World) :
  time.maxDuration <= maxResultAge m ->
  stale m w = false /\
  call_state p (m, w) = (m, tick w) /\
  call_result p (m, w) = parseSuggestedGasPrice p (latestResponse m).
Proof.
  intros Hmax.
  assert (Hs : stale m w = false).
  { unfold stale, age_at. rewrite Z.gtb_ltb. apply Z.ltb_ge.
    pose proof (subMono_le_max (clock w (reads w)) (fetchedAt m)). lia. }
  rewrite call_state_eq, call_result_eq, Hs. repeat split.
Qed.

End Ageing.

Lemma max_duration_never_expires_witness :
  let m := mkManager 0 time.maxDuration Scenario.quotes in
  let w := Scenario.world 1 5 in
  stale m w = false /\
  call_state "fast" (m, w) = (m, tick w) /\
  call_result "fast" (m, w)
    = parseSuggestedGasPrice "fast" (latestResponse m).
Proof.
  intros m w. apply (max_duration_never_expires "fast" m w).
  vm_compute. discriminate.
Defined.

Section EndpointSelection.

(** X9: [SetKey] sends nothing and reads no clock; from then on every
    request goes to the keyed URL built from the last key given, also for a
    suggester constructed before the call, whose next refresh asks the keyed
    endpoint. *)
Theorem SetKey_switches_endpoint
    (k : string) (p : GasPriority) (m : gasPriceManager) (w : World) :
  let w' := snd (SetKey k w) in
  next_url w' = (keylink ++ k)%string /\
  fetches w' = fetches w /\ reads w' = reads w /\
  (forall k0, snd (SetKey k (snd (SetKey k0 w))) = w') /\
  fst (loadGasPrices w')
    = Return (fetch_outcome (oracle w (keylink ++ k)%string (fetches w))) /\
  call_result p (m, w') =
    if stale m w then
      match fetch_outcome (oracle w (keylink ++ k)%string (fetches w)) with
      | (_, Some e) => Return (None, Some e)
      | (d, None) => parseSuggestedGasPrice p d
      end
    else parseSuggestedGasPrice p (latestResponse m).
Proof.
  cbv zeta. repeat split.
  - rewrite loadGasPrices_eq. reflexivity.
  - rewrite call_result_eq. reflexivity.
Qed.

(** X10: no operation of the package other than [SetKey] touches the
    endpoint selection: a fetch, an uncached suggestion, a construction and
    a cached call all leave [keybased] and [key] as they were, and [SetKey]
    only ever sets [keybased] to true. *)
Theorem endpoint_only_changed_by_SetKey
    (p : GasPriority) (a : time.Duration) (m : gasPriceManager) (w : World) :
  endpoint (snd (loadGasPrices w)) = endpoint w /\
  endpoint (snd (SuggestGasPrice p w)) = endpoint w /\
  endpoint (snd (NewGasPriceSuggester a w)) = endpoint w /\
  endpoint (snd (call_state p (m, w))) = endpoint w /\
  (forall k, endpoint (snd (SetKey k w)) = (true, k)).
Proof.
  rewrite loadGasPrices_eq, SuggestGasPrice_eq, NewGasPriceSuggester_eq,
    call_state_eq.
  destruct (stale m w);
    destruct (fetch_outcome (next_fetch w)) as [d [e|]]; repeat split.
Qed.

End EndpointSelection.

Section Runs.

(** X11: over any sequence of calls of one cached suggester, with any
    priorities and any outcomes, at most one request is sent per call,
    [maxResultAge] keeps its value and the endpoint selection is not
    touched. *)
Theorem run_calls_invariants (ps : list GasPriority) (s : St) :
  (fetches (snd s) <= fetches (snd (run_calls ps s))
   <= fetches (snd s) + List.length ps)%nat /\
  maxResultAge (fst (run_calls ps s)) = maxResultAge (fst s) /\
  endpoint (snd (run_calls ps s)) = endpoint (snd s).
Proof.
  revert s. induction ps as [|p ps IH]; intros s.
  - cbn. repeat split; lia.
  - cbn [run_calls List.length].
    destruct (IH (call_state p s)) as (IHf & IHa & IHe).
    destruct s as [m w].
    pose proof (call_state_eq w m p) as E.
    assert (Hstep : (fetches w <= fetches (snd (call_state p (m, w)))
                     <= S (fetches w))%nat /\
                    maxResultAge (fst (call_state p (m, w))) = maxResultAge m /\
                    endpoint (snd (call_state p (m, w))) = endpoint w).
    { rewrite E. destruct (stale m w);
        [destruct (fetch_outcome (next_fetch w)) as [d [e|]]|];
        cbn; repeat split; lia. }
    destruct Hstep as (Hf & Ha & He). cbn [fst snd].
    rewrite IHa, IHe, Ha, He. repeat split; lia.
Qed.

End Runs.

(* ================================================================== *)
(** ** Further properties of the converter *)

Section ConverterShape.

Lemma IsInt_Int_some (g : big.Float) :
  big.IsInt g = true -> exists z, fst (big.Int g) = Some z.
Proof.
  unfold big.IsInt, big.Int. destruct (big.fform g).
  - intros _. exists 0. reflexivity.
  - destruct (big.exp g <=? 0); [discriminate|]. intros _. eexists. reflexivity.
  - discriminate.
Qed.

(** The product of any finite float64 with the factor is computed without a
    panic: the factor is finite. *)
Lemma gwei_returns (s : bool) (m : positive) (e : Z) :
  exists g,
    (x <~ big.NewFloat (S754_finite s m e) ;;
     big.Mul big.new_Float x conversionFactor)%go = Return g.
Proof.
  unfold big.NewFloat, big.SetFloat64, obind, big.Mul, conversionFactor.
  cbn [IsNaN big.prec big.new_Float big.mode big.neg big.fform big.mant big.exp].
  cbn [Z.eqb Z.ltb Z.compare Pos.compare Pos.compare_cont Z.max].
  cbn [big.prec big.new_Float big.mode big.neg big.fform big.mant big.exp].
  eexists. reflexivity.
Qed.

(** The three ways a call of the converter can end. *)
Lemma parseGasPriceToWei_cases (raw : float64) :
  (raw = S754_nan /\ parseGasPriceToWei raw = Panic "NewFloat(NaN)") \/
  (raw <> S754_nan /\
   (parseGasPriceToWei raw = Return (None, Some ErrNotInteger) \/
    exists z, parseGasPriceToWei raw = Return (Some z, None))).
Proof.
  destruct raw as [s|s| |s m e].
  - right. split; [discriminate|]. right. exists 0. destruct s; reflexivity.
  - right. split; [discriminate|]. left. apply parseGasPriceToWei_infinity.
  - left. split; reflexivity.
  - right. split; [discriminate|].
    destruct (gwei_returns s m e) as [g Hg].
    rewrite (parseGasPriceToWei_of_gwei _ g Hg).
    destruct (big.IsInt g) eqn:Hi; [right|left; reflexivity].
    destruct (IsInt_Int_some g Hi) as [z Hz]. exists z. now rewrite Hz.
Qed.

(** X12: the converter panics on NaN and on nothing else; whenever it
    returns, exactly one of the amount and the error is nil, and the only
    error it ever returns is [ErrNotInteger]. *)
Theorem parseGasPriceToWei_shape (raw : float64) :
  (forall msg, parseGasPriceToWei raw = Panic msg <-> 
               raw = S754_nan /\ msg = "NewFloat(NaN)") /\
  (forall amount err, parseGasPriceToWei raw = Return (amount, err) ->
     (amount = None /\ err = Some ErrNotInteger) \/
     (exists z, amount = Some z /\ err = None)).
Proof.
  destruct (parseGasPriceToWei_cases raw) as [[Hn E]|[Hn [E|[z E]]]];
    rewrite E; split.
  - intros msg. split.
    + intros [= <-]. split; [exact Hn|reflexivity].
    + intros [_ ->]. reflexivity.
  - intros amount err H. discriminate H.
  - intros msg. split; [discriminate|]. intros [C _]. contradiction.
  - intros amount err [= <- <-]. left. split; reflexivity.
  - intros msg. split; [discriminate|]. intros [C _]. contradiction.
  - intros amount err [= <- <-]. right. exists z. split; reflexivity.
Qed.

(** X13: the tier lookup reports [ErrUnknownPriority] exactly for the
    priorities outside the four known ones, whatever the quotes are (they
    are not examined, so not even a NaN quote matters); for a known priority
    the result is the conversion of the quote that priority selects, so the
    only error it can return is the converter's [ErrNotInteger], with a nil
    amount. *)
Theorem unknown_priority_iff (p : GasPriority) (prices : ethGasStationResponse) :
  (parseSuggestedGasPrice p prices = Return (None, Some ErrUnknownPriority)
   <-> known_priority p = false) /\
  (quote_of p prices = None <-> known_priority p = false) /\
  (forall raw, quote_of p prices = Some raw ->
     parseSuggestedGasPrice p prices = parseGasPriceToWei raw) /\
  (known_priority p = true ->
   forall amount e,
     parseSuggestedGasPrice p prices = Return (amount, Some e) ->
     amount = None /\ e = ErrNotInteger).
Proof.
  assert (Hsel : known_priority p = true ->
            exists raw, quote_of p prices = Some raw /\
                        parseSuggestedGasPrice p prices = parseGasPriceToWei raw).
  { unfold known_priority, quote_of, parseSuggestedGasPrice,
      GasPriorityFast, GasPriorityFastest, GasPrioritySafeLow,
      GasPriorityAverage.
    destruct (String.eqb p "fast"); [eexists; split; reflexivity|].
    destruct (String.eqb p "fastest"); [eexists; split; reflexivity|].
    destruct (String.eqb p "safeLow"); [eexists; split; reflexivity|].
    destruct (String.eqb p "average"); [eexists; split; reflexivity|].
    discriminate. }
  assert (Hnone : known_priority p = false -> quote_of p prices = None).
  { unfold known_priority, quote_of,
      GasPriorityFast, GasPriorityFastest, GasPrioritySafeLow,
      GasPriorityAverage.
    destruct (String.eqb p "fast"); [discriminate|].
    destruct (String.eqb p "fastest"); [discriminate|].
    destruct (String.eqb p "safeLow"); [discriminate|].
    destruct (String.eqb p "average"); [discriminate|].
    reflexivity. }
  split; [|split; [|split]].
  - split; [|apply parseSuggestedGasPrice_unknown].
    intros H. apply not_true_is_false. intros Hk.
    destruct (Hsel Hk) as (raw & _ & Hq). rewrite Hq in H.
    destruct (parseGasPriceToWei_cases raw) as [[_ E]|[_ [E|[z E]]]];
      rewrite E in H; discriminate H.
  - split; [|exact Hnone].
    intros H. apply not_true_is_false. intros Hk.
    destruct (Hsel Hk) as (raw & Hq & _). rewrite Hq in H. discriminate H.
  - intros raw Hraw. destruct (known_priority p) eqn:Hk.
    + destruct (Hsel eq_refl) as (raw' & Hq & Hp).
      rewrite Hq in Hraw. injection Hraw as <-. exact Hp.
    + rewrite (Hnone eq_refl) in Hraw. discriminate Hraw.
  - intros Hk amount e H.
    destruct (Hsel Hk) as (raw & _ & Hq). rewrite Hq in H.
    destruct (parseGasPriceToWei_cases raw) as [[_ E]|[_ [E|[z E]]]];
      rewrite E in H; try discriminate H.
    injection H as <- <-. split; reflexivity.
Qed.

(** X19: [SuggestFastGasPrice] sends one request and converts the [Fast]
    quote it fetched; a fetch error is passed on, and after a successful
    fetch the unknown-priority error cannot occur. *)
Theorem SuggestFastGasPrice_converts_fast (w : World) :
  fetches (snd (SuggestFastGasPrice w)) = S (fetches w) /\
  fst (SuggestFastGasPrice w) =
    match fetch_outcome (next_fetch w) with
    | (_, Some e) => Return (None, Some e)
    | (d, None) => parseGasPriceToWei (Fast d)
    end /\
  (snd (fetch_outcome (next_fetch w)) = None ->
   fst (SuggestFastGasPrice w) <> Return (None, Some ErrUnknownPriority)).
Proof.
  unfold SuggestFastGasPrice. rewrite SuggestGasPrice_eq.
  destruct (fetch_outcome (next_fetch w)) as [d [e|]]; cbn [fst snd].
  - repeat split. discriminate.
  - split; [reflexivity|]. split; [reflexivity|]. intros _.
    change (parseSuggestedGasPrice GasPriorityFast d)
      with (parseGasPriceToWei (Fast d)).
    destruct (parseGasPriceToWei_cases (Fast d)) as [[_ E]|[_ [E|[z E]]]];
      rewrite E; discriminate.
Qed.

End ConverterShape.

Section RoundingOrder.
Local Open Scope Q_scope.

Ltac compare_facts :=
  repeat match goal with
  | H : Qcompare ?a ?b = Eq |- _ => apply (proj2 (Qeq_alt a b)) in H
  | H : Qcompare ?a ?b = Lt |- _ => apply (proj2 (Qlt_alt a b)) in H
  | H : Qcompare ?a ?b = Gt |- _ => apply (proj2 (Qgt_alt a b)) in H
  end.

Lemma Qfloor_bounds (q : Q) :
  inject_Z (Qfloor q) <= q /\ q < inject_Z (Qfloor q) + 1.
Proof.
  split; [apply Qfloor_le|].
  pose proof (Qlt_floor q) as H. rewrite inject_Z_plus in H. exact H.
Qed.

Lemma Qrne_cases (q : Q) :
  (Qrne q = Qfloor q /\ q - inject_Z (Qfloor q) <= 1 # 2) \/
  (Qrne q = (Qfloor q + 1)%Z /\ 1 # 2 <= q - inject_Z (Qfloor q)).
Proof.
  unfold Qrne.
  destruct (Qcompare (q - inject_Z (Qfloor q)) (1 # 2)) eqn:C; compare_facts.
  - destruct (Z.even (Qfloor q)); [left|right];
      (split; [reflexivity|rewrite C; apply Qle_refl]).
  - left. split; [reflexivity|apply Qlt_le_weak, C].
  - right. split; [reflexivity|apply Qlt_le_weak, C].
Qed.

(** Rounding to the nearest integer moves a number by at most one half. *)
Lemma Qrne_error (q : Q) : Qabs (inject_Z (Qrne q) - q) <= 1 # 2.
Proof.
  destruct (Qfloor_bounds q) as [L U].
  apply Qabs_Qle_condition.
  destruct (Qrne_cases q) as [[-> H]|[-> H]].
  - split; lra.
  - rewrite inject_Z_plus. change (inject_Z 1) with 1. split; lra.
Qed.

(** Rounding to the nearest integer, ties to even, is monotone. *)
Lemma Qrne_mono (x y : Q) : x <= y -> (Qrne x <= Qrne y)%Z.
Proof.
  intros H. pose proof (Qfloor_resp_le x y H) as Hf.
  destruct (Qfloor_bounds x) as [Lx Ux]. destruct (Qfloor_bounds y) as [Ly Uy].
  destruct (Z.eq_dec (Qfloor x) (Qfloor y)) as [E|N].
  - unfold Qrne. rewrite <- E in Ly, Uy |- *.
    destruct (Qcompare (x - inject_Z (Qfloor x)) (1 # 2)) eqn:Cx;
      destruct (Qcompare (y - inject_Z (Qfloor x)) (1 # 2)) eqn:Cy;
      try (destruct (Z.even (Qfloor x)); lia); try lia; exfalso;
      compare_facts; lra.
  - destruct (Qrne_cases x) as [[Ex _]|[Ex _]];
      destruct (Qrne_cases y) as [[Ey _]|[Ey _]]; lia.
Qed.

Lemma binexp_pos (q : Q) :
  0 < q -> 2 ^ (Qbinexp q - 1) <= q /\ q < 2 ^ Qbinexp q.
Proof.
  intros H.
  assert (Hnz : ~ q == 0) by (intros C; rewrite C in H; discriminate H).
  destruct (Qbinexp_spec q Hnz) as [L U].
  rewrite Qabs_pos in L, U by (apply Qlt_le_weak, H). split; assumption.
Qed.

Lemma Qbinexp_mono (x y : Q) : 0 < x -> x <= y -> (Qbinexp x <= Qbinexp y)%Z.
Proof.
  intros Hx Hxy.
  destruct (binexp_pos x Hx) as [Lx _].
  destruct (binexp_pos y (Qlt_le_trans _ _ _ Hx Hxy)) as [_ Uy].
  assert (H : 2 ^ (Qbinexp x - 1) < 2 ^ Qbinexp y).
  { eapply Qle_lt_trans; [exact Lx|]. eapply Qle_lt_trans; eassumption. }
  apply pow2_lt_inv in H. lia.
Qed.

Lemma div_pow2_le (a b : Q) (k : Z) : a <= b -> a / 2 ^ k <= b / 2 ^ k.
Proof.
  intros H. unfold Qdiv. apply Qmult_le_compat_r; [exact H|].
  apply Qlt_le_weak, Qinv_lt_0_compat, pow2_pos.
Qed.

Lemma pow2_div (a b : Z) : 2 ^ a / 2 ^ b == 2 ^ (a - b).
Proof. symmetry. apply pow2_sub. Qed.

(** A positive number rounded to [p >= 1] bits stays within its binade,
    closed above. *)
Lemma round_to_prec_binade (p : Z) (q : Q) :
  (1 <= p)%Z -> 0 < q ->
  2 ^ (Qbinexp q - 1) <= round_to_prec p q /\ round_to_prec p q <= 2 ^ Qbinexp q.
Proof.
  intros Hp Hq. destruct (binexp_pos q Hq) as [L U].
  set (e := Qbinexp q) in *.
  assert (Hnz : Qeq_bool q 0 = false).
  { destruct (Qeq_bool q 0) eqn:E; [|reflexivity].
    apply Qeq_bool_iff in E. rewrite E in Hq. discriminate Hq. }
  unfold round_to_prec. rewrite Hnz. fold e.
  assert (Elo : 2 ^ (p - 1) == 2 ^ (e - 1) / 2 ^ (e - p)).
  { rewrite pow2_div. replace (e - 1 - (e - p))%Z with (p - 1)%Z by ring.
    reflexivity. }
  assert (Ehi : 2 ^ p == 2 ^ e / 2 ^ (e - p)).
  { rewrite pow2_div. replace (e - (e - p))%Z with p by ring. reflexivity. }
  assert (Hlo : (2 ^ (p - 1) <= Qrne (q / 2 ^ (e - p)))%Z).
  { rewrite <- (Qrne_inject (2 ^ (p - 1))). apply Qrne_mono.
    rewrite <- pow2_inject, Elo by lia. apply div_pow2_le. exact L. }
  assert (Hhi : (Qrne (q / 2 ^ (e - p)) <= 2 ^ p)%Z).
  { rewrite <- (Qrne_inject (2 ^ p)). apply Qrne_mono.
    rewrite <- pow2_inject, Ehi by lia. apply div_pow2_le.
    apply Qlt_le_weak, U. }
  rewrite Zle_Qle in Hlo, Hhi.
  rewrite <- pow2_inject in Hlo, Hhi by lia.
  assert (Flo : 2 ^ (e - 1) == 2 ^ (p - 1) * 2 ^ (e - p)).
  { rewrite <- pow2_add. replace (p - 1 + (e - p))%Z with (e - 1)%Z by ring.
    reflexivity. }
  assert (Fhi : 2 ^ e == 2 ^ p * 2 ^ (e - p)).
  { rewrite <- pow2_add. replace (p + (e - p))%Z with e by ring.
    reflexivity. }
  split.
  - rewrite Flo.
    apply Qmult_le_compat_r; [exact Hlo|apply Qlt_le_weak, pow2_pos].
  - rewrite Fhi.
    apply Qmult_le_compat_r; [exact Hhi|apply Qlt_le_weak, pow2_pos].
Qed.

Lemma round_to_prec_pos (p : Z) (q : Q) :
  (1 <= p)%Z -> 0 < q -> 0 < round_to_prec p q.
Proof.
  intros Hp Hq. destruct (round_to_prec_binade p q Hp Hq) as [L _].
  eapply Qlt_le_trans; [apply (pow2_pos (Qbinexp q - 1))|exact L].
Qed.

Lemma round_to_prec_mono_pos (p : Z) (x y : Q) :
  (1 <= p)%Z -> 0 < x -> x <= y -> round_to_prec p x <= round_to_prec p y.
Proof.
  intros Hp Hx Hxy.
  assert (Hy : 0 < y) by (eapply Qlt_le_trans; eassumption).
  pose proof (Qbinexp_mono x y Hx Hxy) as He.
  destruct (Z.eq_dec (Qbinexp x) (Qbinexp y)) as [E|N].
  - unfold round_to_prec.
    assert (Hx0 : Qeq_bool x 0 = false).
    { destruct (Qeq_bool x 0) eqn:C; [|reflexivity].
      apply Qeq_bool_iff in C. rewrite C in Hx. discriminate Hx. }
    assert (Hy0 : Qeq_bool y 0 = false).
    { destruct (Qeq_bool y 0) eqn:C; [|reflexivity].
      apply Qeq_bool_iff in C. rewrite C in Hy. discriminate Hy. }
    rewrite Hx0, Hy0, E.
    apply Qmult_le_compat_r; [|apply Qlt_le_weak, pow2_pos].
    rewrite <- Zle_Qle. apply Qrne_mono. apply div_pow2_le. exact Hxy.
  - destruct (round_to_prec_binade p x Hp Hx) as [_ Ux].
    destruct (round_to_prec_binade p y Hp Hy) as [Ly _].
    eapply Qle_trans; [exact Ux|]. eapply Qle_trans; [|exact Ly].
    apply pow2_le. lia.
Qed.

(** Rounding to [p >= 1] bits is monotone. *)
Lemma round_to_prec_mono (p : Z) (x y : Q) :
  (1 <= p)%Z -> x <= y -> round_to_prec p x <= round_to_prec p y.
Proof.
  intros Hp Hxy.
  destruct (Qlt_le_dec 0 x) as [Hx|Hx].
  - apply round_to_prec_mono_pos; assumption.
  - destruct (Qlt_le_dec y 0) as [Hy|Hy].
    + assert (H : round_to_prec p (- y) <= round_to_prec p (- x)).
      { apply round_to_prec_mono_pos; [exact Hp|lra|lra]. }
      rewrite !round_to_prec_opp in H. lra.
    + eapply Qle_trans; [apply round_to_prec_nonpos; exact Hx|].
      apply round_to_prec_nonneg. exact Hy.
Qed.

(** Rounding to [p] bits moves a number by at most [2^-p] of its size. *)
Lemma round_to_prec_error (p : Z) (q : Q) :
  Qabs (round_to_prec p q - q) <= Qabs q * 2 ^ (- p).
Proof.
  unfold round_to_prec. destruct (Qeq_bool q 0) eqn:Z0.
  - apply Qeq_bool_iff in Z0. rewrite Z0. cbn. rewrite Qmult_0_l. discriminate.
  - apply Qeq_bool_neq in Z0. destruct (Qbinexp_spec q Z0) as [L _].
    set (e := Qbinexp q) in *. set (u := 2 ^ (e - p)).
    assert (Hu : 0 < u) by apply pow2_pos.
    assert (E : inject_Z (Qrne (q / u)) * u - q
                == (inject_Z (Qrne (q / u)) - q / u) * u).
    { field. intros C. rewrite C in Hu. discriminate Hu. }
    rewrite E, Qabs_Qmult, (Qabs_pos u) by (apply Qlt_le_weak, Hu).
    eapply Qle_trans.
    { apply Qmult_le_compat_r; [apply Qrne_error|apply Qlt_le_weak, Hu]. }
    assert (Eu : (1 # 2) * u == 2 ^ (e - 1) * 2 ^ (- p)).
    { unfold u. rewrite <- pow2_add.
      replace (e - 1 + - p)%Z with (-1 + (e - p))%Z by ring.
      rewrite pow2_add. reflexivity. }
    rewrite Eu. apply Qmult_le_compat_r; [exact L|apply Qlt_le_weak, pow2_pos].
Qed.

End RoundingOrder.

Section ConverterOrder.
Local Open Scope Q_scope.

(** A successful conversion returns the rounded product. *)
Lemma success_is_rounded_product (raw : float64) (v : Q) (z : Z) :
  is_float64 raw = true ->
  float64_value raw = Some v ->
  parseGasPriceToWei raw = Return (Some z, None) ->
  inject_Z z == round_to_prec 53 (v * factor).
Proof.
  intros Hf Hv Hrun. rewrite (parseGasPriceToWei_spec raw v Hf Hv) in Hrun.
  destruct (Qint (round_to_prec 53 (v * factor))) as [z'|] eqn:Hq;
    [|discriminate Hrun].
  injection Hrun as <-. symmetry. apply Qint_Some. exact Hq.
Qed.

Lemma Qint_opp (q : Q) : Qint (- q) = option_map Z.opp (Qint q).
Proof.
  destruct (Qint q) as [z|] eqn:Hq.
  - apply Qint_Some in Hq. cbn. apply Qint_inject.
    rewrite Hq, inject_Z_opp. reflexivity.
  - cbn. apply Qint_not_integer. intros z C.
    assert (E : q == inject_Z (- z)).
    { rewrite inject_Z_opp, <- C. ring. }
    rewrite (Qint_inject _ _ E) in Hq. discriminate Hq.
Qed.

Lemma factor_pos : 0 < factor.
Proof. reflexivity. Qed.

End ConverterOrder.

(** X14: the converter is odd: negating the quote negates the amount and
    leaves failures (and the NaN panic) as they are. *)
Theorem parseGasPriceToWei_opp (raw : float64) :
  is_float64 raw = true ->
  parseGasPriceToWei (float64_opp raw) =
    match parseGasPriceToWei raw with
    | Return (Some z, err) => Return (Some (- z), err)
    | other => other
    end.
Proof.
  intros Hf. destruct raw as [s|s| |s m e].
  - destruct s; reflexivity.
  - destruct s; reflexivity.
  - reflexivity.
  - set (v := (inject_Z (if s then Zneg m else Zpos m) * 2 ^ e)%Q).
    assert (Hv : float64_value (S754_finite s m e) = Some v) by reflexivity.
    assert (Hf' : is_float64 (float64_opp (S754_finite s m e)) = true)
      by exact Hf.
    rewrite (parseGasPriceToWei_spec _ _ Hf' eq_refl).
    rewrite (parseGasPriceToWei_spec _ v Hf Hv).
    assert (E : (inject_Z (if negb s then Zneg m else Zpos m) * 2 ^ e * factor
                 == - (v * factor))%Q).
    { unfold v. destruct s; cbn [negb];
        change (Zneg m) with (- Zpos m)%Z; rewrite ?inject_Z_opp; ring. }
    assert (Eq : Qint (round_to_prec 53
                   (inject_Z (if negb s then Zneg m else Zpos m) * 2 ^ e * factor))
                 = option_map Z.opp (Qint (round_to_prec 53 (v * factor)))).
    { rewrite <- Qint_opp. unfold Qint.
      pose proof (round_to_prec_comp 53 _ _ E) as R.
      rewrite round_to_prec_opp in R.
      rewrite (Qfloor_comp _ _ R).
      rewrite (Qeqb_comp _ _ R _ _ (Qeq_refl _)). reflexivity. }
    cbn [float64_opp float64_value]. rewrite Eq.
    destruct (Qint (round_to_prec 53 (v * factor))); reflexivity.
Qed.

Lemma parseGasPriceToWei_opp_witness :
  parseGasPriceToWei (float64_opp (float64_of_decimal 453 10)) =
    match parseGasPriceToWei (float64_of_decimal 453 10) with
    | Return (Some z, err) => Return (Some (- z), err)
    | other => other
    end.
Proof.
  apply (parseGasPriceToWei_opp (float64_of_decimal 453 10)). reflexivity.
Defined.

(** X15: the converter keeps the sign: a positive quote that converts gives
    a positive amount, a negative one a negative amount, and only a zero
    quote gives 0. *)
Theorem parseGasPriceToWei_sign (raw : float64) (v : Q) (z : Z) :
  is_float64 raw = true ->
  float64_value raw = Some v ->
  parseGasPriceToWei raw = Return (Some z, None) ->
  ((0 < v)%Q -> 0 < z) /\ ((v < 0)%Q -> z < 0) /\ ((v == 0)%Q <-> z = 0).
Proof.
  intros Hf Hv Hrun.
  pose proof (success_is_rounded_product raw v z Hf Hv Hrun) as Hz.
  assert (Hpos : (0 < v)%Q -> 0 < z).
  { intros H. rewrite Zlt_Qlt, Hz. change (inject_Z 0) with 0%Q.
    apply round_to_prec_pos; [lia|].
    apply Qmult_lt_0_compat; [exact H|apply factor_pos]. }
  assert (Hneg : (v < 0)%Q -> z < 0).
  { intros H. rewrite Zlt_Qlt, Hz. change (inject_Z 0) with 0%Q.
    assert (P : (0 < round_to_prec 53 (- (v * factor)))%Q).
    { apply round_to_prec_pos; [lia|].
      setoid_replace (- (v * factor))%Q with ((- v) * factor)%Q by ring.
      apply Qmult_lt_0_compat; [lra|apply factor_pos]. }
    rewrite round_to_prec_opp in P. lra. }
  split; [exact Hpos|]. split; [exact Hneg|]. split.
  - intros H0. apply inject_Z_injective. rewrite Hz.
    apply round_to_prec_0. rewrite H0. ring.
  - intros ->. destruct (Qlt_le_dec 0 v) as [P|P].
    + apply Hpos in P. lia.
    + destruct (Qlt_le_dec v 0) as [N|N].
      * apply Hneg in N. lia.
      * lra.
Qed.

Lemma parseGasPriceToWei_sign_witness :
  let v := (inject_Z 7036874417766400 * 2 ^ (-44))%Q in
  ((0 < v)%Q -> 0 < 40000000000) /\ ((v < 0)%Q -> 40000000000 < 0) /\
  ((v == 0)%Q <-> 40000000000 = 0).
Proof.
  intros v.
  apply (parseGasPriceToWei_sign (float64_of_Z 400) v 40000000000);
    vm_compute; reflexivity.
Defined.

(** X16: a finite quote whose exact product with [1e8] has magnitude at
    least [2^52] (quotes from about 4.5e7 upwards) is never rejected: at
    that size every 53-bit number is an integer, so the rounded product is
    returned whether or not the exact product was an integer. *)
Theorem large_quote_never_rejected (raw : float64) (v : Q) :
  is_float64 raw = true ->
  float64_value raw = Some v ->
  (inject_Z (2 ^ 52) <= Qabs (v * factor))%Q ->
  exists z, parseGasPriceToWei raw = Return (Some z, None) /\
            (inject_Z z == round_to_prec 53 (v * factor))%Q.
Proof.
  intros Hf Hv Hbig. rewrite (parseGasPriceToWei_spec raw v Hf Hv).
  set (q := (v * factor)%Q) in *.
  assert (Hnz : ~ (q == 0)%Q).
  { intros C. rewrite C in Hbig. vm_compute in Hbig. exact (Hbig eq_refl). }
  destruct (Qbinexp_spec q Hnz) as [_ U].
  assert (He : 52 < Qbinexp q).
  { apply pow2_lt_inv. rewrite (pow2_inject 52) by lia.
    eapply Qle_lt_trans; eassumption. }
  assert (E : (round_to_prec 53 q
               == inject_Z (Qrne (q / 2 ^ (Qbinexp q - 53))
                            * 2 ^ (Qbinexp q - 53)))%Q).
  { unfold round_to_prec. destruct (Qeq_bool q 0) eqn:Z0.
    - apply Qeq_bool_iff in Z0. contradiction.
    - rewrite inject_Z_mult, <- pow2_inject by lia. reflexivity. }
  eexists. rewrite (Qint_inject _ _ E). split; [reflexivity|].
  symmetry. exact E.
Qed.

Lemma large_quote_never_rejected_witness :
  let v := (inject_Z 4503599627370497 * 2 ^ (-26))%Q in
  exists z,
    parseGasPriceToWei (S754_finite false 4503599627370497 (-26))
      = Return (Some z, None) /\
    (inject_Z z == round_to_prec 53 (v * factor))%Q.
Proof.
  intros v.
  apply (large_quote_never_rejected
           (S754_finite false 4503599627370497 (-26)) v).
  - reflexivity.
  - reflexivity.
  - vm_compute. discriminate.
Defined.

(** X17: an amount the converter returns differs from the exact product
    [raw * 1e8] by at most [2^-53] of that product: the only inexactness is
    the one rounding of the product to 53 bits. *)
Theorem parseGasPriceToWei_error_bound (raw : float64) (v : Q) (z : Z) :
  is_float64 raw = true ->
  float64_value raw = Some v ->
  parseGasPriceToWei raw = Return (Some z, None) ->
  (Qabs (inject_Z z - v * factor) <= Qabs (v * factor) * half_ulp53)%Q.
Proof.
  intros Hf Hv Hrun.
  pose proof (success_is_rounded_product raw v z Hf Hv Hrun) as Hz.
  rewrite Hz. exact (round_to_prec_error 53 (v * factor)).
Qed.

Lemma parseGasPriceToWei_error_bound_witness :
  let v := (inject_Z 7205759403792794 * 2 ^ (-56))%Q in
  (Qabs (inject_Z 10000000 - v * factor) <= Qabs (v * factor) * half_ulp53)%Q.
Proof.
  intros v.
  apply (parseGasPriceToWei_error_bound (float64_of_decimal 1 10) v 10000000);
    vm_compute; reflexivity.
Defined.

(** X18: the converter preserves order: of two quotes that both convert, the
    larger one never gives the smaller amount. *)
Theorem parseGasPriceToWei_monotone
    (raw1 raw2 : float64) (v1 v2 : Q) (z1 z2 : Z) :
  is_float64 raw1 = true -> is_float64 raw2 = true ->
  float64_value raw1 = Some v1 -> float64_value raw2 = Some v2 ->
  (v1 <= v2)%Q ->
  parseGasPriceToWei raw1 = Return (Some z1, None) ->
  parseGasPriceToWei raw2 = Return (Some z2, None) ->
  z1 <= z2.
Proof.
  intros Hf1 Hf2 Hv1 Hv2 Hle Hr1 Hr2.
  pose proof (success_is_rounded_product raw1 v1 z1 Hf1 Hv1 Hr1) as Hz1.
  pose proof (success_is_rounded_product raw2 v2 z2 Hf2 Hv2 Hr2) as Hz2.
  rewrite Zle_Qle, Hz1, Hz2. apply round_to_prec_mono; [lia|].
  apply Qmult_le_compat_r; [exact Hle|apply Qlt_le_weak, factor_pos].
Qed.

Lemma parseGasPriceToWei_monotone_witness : 5000000000 <= 40000000000.
Proof.
  apply (parseGasPriceToWei_monotone (float64_of_Z 50) (float64_of_Z 400)
           (inject_Z 7036874417766400 * 2 ^ (-47))%Q
           (inject_Z 7036874417766400 * 2 ^ (-44))%Q);
    try (vm_compute; reflexivity).
  vm_compute. discriminate.
Defined.

(** One-decimal quotes are not all accepted: the float64 nearest to [1.1]
    times [1e8], rounded to 53 bits, is [110000000.00000001...], so the
    quote [1.1] is rejected while [1.2] converts. *)
Example decimal_quotes_evaluated :
  parseGasPriceToWei (float64_of_decimal 11 10)
    = Return (None, Some ErrNotInteger) /\
  parseGasPriceToWei (float64_of_decimal 12 10)
    = Return (Some 120000000, None).
Proof. split; vm_compute; reflexivity. Qed.

Section ClockInvariant.

Lemma run_calls_clock (ps : list GasPriority) (s : St) :
  clock (snd (run_calls ps s)) = clock (snd s).
Proof.
  revert s. induction ps as [|p ps IH]; intros [m w]; [reflexivity|].
  cbn [run_calls]. rewrite IH, call_state_eq.
  destruct (stale m w);
    [destruct (fetch_outcome (next_fetch w)) as [d [e|]]|]; reflexivity.
Qed.

(** One call keeps the timestamp at or before the next clock reading and
    never moves it backwards. *)
Lemma call_keeps_timestamp_past (p : GasPriority) (m : gasPriceManager) (w : World) :
  monotone_clock w ->
  fetchedAt m <= clock w (reads w) ->
  fetchedAt (fst (call_state p (m, w)))
    <= clock w (reads (snd (call_state p (m, w)))) /\
  fetchedAt m <= fetchedAt (fst (call_state p (m, w))).
Proof.
  intros Hc Hm. rewrite call_state_eq.
  pose proof (Hc (reads w)) as H1. pose proof (Hc (S (reads w))) as H2.
  destruct (stale m w);
    [destruct (fetch_outcome (next_fetch w)) as [d [e|]]|];
    cbn [fst snd fetchedAt reads sent tick]; lia.
Qed.

(** X20: with a clock that never goes backwards, a suggester never sees its
    cache in the future: from construction on and over any sequence of
    calls, the timestamp is at most the next clock reading, so the age a call
    computes is never negative, and the timestamp never decreases. *)
Theorem age_never_negative
    (a : time.Duration) (w0 w1 : World) (m : gasPriceManager)
    (ps : list GasPriority) :
  monotone_clock w0 ->
  NewGasPriceSuggester a w0 = (Return (Some m, None), w1) ->
  fetchedAt m <= fetchedAt (fst (run_calls ps (m, w1))) /\
  0 <= age_at (fst (run_calls ps (m, w1))) (snd (run_calls ps (m, w1))).
Proof.
  intros Hc Hnew.
  assert (H1 : clock w1 = clock w0 /\ fetchedAt m <= clock w1 (reads w1)).
  { rewrite NewGasPriceSuggester_eq in Hnew.
    destruct (fetch_outcome (next_fetch w0)) as [d [e|]]; [discriminate|].
    injection Hnew as <- <-. split; [reflexivity|].
    cbn [fetchedAt clock reads tick sent]. apply Hc. }
  destruct H1 as [Hclk Hm].
  assert (Hc1 : monotone_clock w1).
  { intros n. rewrite Hclk. apply Hc. }
  clear Hnew Hclk Hc.
  assert (Inv : forall ps s,
            monotone_clock (snd s) ->
            fetchedAt (fst s) <= clock (snd s) (reads (snd s)) ->
            fetchedAt (fst s) <= fetchedAt (fst (run_calls ps s)) /\
            fetchedAt (fst (run_calls ps s))
              <= clock (snd s) (reads (snd (run_calls ps s)))).
  { clear. induction ps as [|p ps IH]; intros [m w] Hc Hm; cbn [fst snd] in *.
    - cbn. lia.
    - cbn [run_calls].
      destruct (call_keeps_timestamp_past p m w Hc Hm) as [K1 K2].
      assert (Ec : clock (snd (call_state p (m, w))) = clock w).
      { exact (run_calls_clock (p :: nil) (m, w)). }
      destruct (IH (call_state p (m, w))) as [I1 I2].
      + intros n. rewrite Ec. apply Hc.
      + rewrite Ec. exact K1.
      + rewrite Ec in I2. split; [lia|exact I2]. }
  destruct (Inv ps (m, w1) Hc1 Hm) as [I1 I2]. cbn [fst snd] in I1, I2.
  split; [exact I1|].
  unfold age_at. apply subMono_nonneg.
  rewrite (run_calls_clock ps (m, w1)). exact I2.
Qed.

Lemma age_never_negative_witness :
  let m := mkManager 0 time.Second Scenario.quotes in
  let s := run_calls ("fast" :: "nope" :: "average" :: nil)
             (m, Scenario.world 1 1) in
  fetchedAt m <= fetchedAt (fst s) /\ 0 <= age_at (fst s) (snd s).
Proof.
  intros m s.
  apply (age_never_negative time.Second (Scenario.world 0 0)
           (Scenario.world 1 1) m ("fast" :: "nope" :: "average" :: nil)).
  - intros n. unfold Scenario.world, Scenario.clock. cbn [clock]. lia.
  - reflexivity.
Defined.

End ClockInvariant.
